(** * neogma: the Where predicate compiler and the QueryBuilder clause compiler

    A shallow embedding of [src/Queries/Where/Where.ts] and
    [src/QueryBuilder/QueryBuilder.ts].

    Conventions of the embedding.
    - A JavaScript string is a [string]; its characters are code units below
      256.  The whitespace class [\s] is restricted accordingly.
    - A JavaScript number is an integer ([Z]); fractional numbers play no
      role in the compiler, which never prints a value.
    - A plain object used as a dictionary and walked with [for .. in] is an
      association list in enumeration order.  Keys are assumed not to be
      canonical array indices, so that enumeration order is insertion order.
    - The bind parameter table is shared by reference between the
      QueryBuilder and every Where it creates: it is the state threaded
      through the compiler, a [gmap] from names to values.
    - [throw] is the [Throw] result; the table keeps the entries registered
      before the fault. *)

From stdpp Require Import gmap strings list pretty.
From Stdlib Require Import Ascii String.

Local Open Scope Z_scope.
Set Warnings "-register-all".

(** ** Values *)

(** The value kinds of neo4j-driver told apart by [isInt], [isPoint],
    [isDate], [isTime], [isLocalTime], [isDateTime], [isLocalDateTime] and
    [isDuration]. *)
Inductive DriverKind :=
  | KInt | KPoint | KDate | KTime | KLocalTime
  | KDateTime | KLocalDateTime | KDuration.

(** A run-time value.  An object carries what is stored under the symbol
    key [Op.in] (if anything) apart from its string-keyed fields. *)
Inductive value :=
  | VUndefined
  | VNull
  | VString (s : string)
  | VNumber (z : Z)
  | VBoolean (b : bool)
  | VDriver (k : DriverKind) (repr : string)
  | VArray (elements : list value)
  | VObject (opIn : option value) (fields : list (string * value)).

(** [neo4j-driver]'s [int(n)]. *)
Definition int (n : Z) : value := VDriver KInt (pretty n).

(** JavaScript truthiness, as used by [!!v] and by [if (v)]. *)
Definition truthy (v : value) : bool :=
  match v with
  | VUndefined | VNull => false
  | VString s => negb (String.eqb s "")
  | VNumber z => negb (z =? 0)
  | VBoolean b => b
  | VDriver _ _ | VArray _ | VObject _ _ => true
  end.

(** [value?.[Op.in]] *)
Definition getOpIn (v : value) : value :=
  match v with
  | VObject (Some x) _ => x
  | _ => VUndefined
  end.

(** [Where.ts], [isWhereIn] *)
Definition isWhereIn (v : value) : bool := truthy (getOpIn v).

Definition isSupportedSingleType (v : value) : bool :=
  match v with
  | VString _ | VNumber _ | VBoolean _ | VDriver _ _ => true
  | _ => false
  end.

(** [Where.ts], [isNeo4jSupportedTypes]: an array is supported when
    [findIndex] finds no unsupported element. *)
Definition isNeo4jSupportedTypes (v : value) : bool :=
  match v with
  | VArray elements => forallb isSupportedSingleType elements
  | _ => isSupportedSingleType v
  end.


(** ** Plain objects as dictionaries *)

Definition dict (A : Type) := list (string * A).

Definition dict_has {A} (k : string) (o : dict A) : bool :=
  existsb (fun kv => String.eqb k kv.1) o.

(** [o[k] = v]: an existing key keeps its place, a new key goes last. *)
Definition dict_set {A} (o : dict A) (k : string) (v : A) : dict A :=
  if dict_has k o
  then List.map (fun kv => if String.eqb k kv.1 then (k, v) else kv) o
  else o ++ [(k, v)].

(** [Object.assign(target, source)]: the own enumerable properties of the
    source are copied in order; the copy is shallow. *)
Definition dict_assign {A} (target source : dict A) : dict A :=
  fold_left (fun t kv => dict_set t kv.1 kv.2) source target.

(** [Object.assign({}, ...sources)] *)
Definition dict_assign_all {A} (sources : list (dict A)) : dict A :=
  fold_left dict_assign sources [].

(** [WhereParamsI] and [WhereParamsByIdentifierI] *)
Definition WhereParamsI := dict value.
Definition WhereParamsByIdentifierI := dict WhereParamsI.

(** ** Clause descriptors

    The descriptor types are declared in [QueryBuilder.types], which is not
    among the sources; they are read off the fields the compiler accesses.
    An object of a union type is a record of its possible fields, an absent
    field being [None] (or [false] for a flag). *)

Inductive Direction := DirOut | DirIn | DirNone.

(** The model a node refers to; only its label accessor is used. *)
Record ModelRef := { getLabel : string }.

(** A node or relationship object: the fields read by [getNodeString] and
    [getRelationshipString]. *)
Record GraphElementObject := {
  identifier : string;
  label : option string;
  model : option ModelRef;
  where_ : option WhereParamsI;
  properties : option (dict value);
  direction : option Direction;
  name : option string;
}.

Inductive Element :=
  | ElString (s : string)
  | ElObject (o : GraphElementObject).

(** [x] or [[x1, ..., xn]] *)
Inductive OneOrMany :=
  | One (s : string)
  | Many (l : list string).

(** [Array.isArray(x) ? x : [x]] *)
Definition toArray (x : OneOrMany) : list string :=
  match x with
  | One s => [s]
  | Many l => l
  end.

Record MatchObject := {
  m_multiple : option (list Element);
  m_related : option (list Element);
  m_literal : option Element;
  m_optional : bool;
  m_node : GraphElementObject;
}.

Inductive MatchI :=
  | MatchString (s : string)
  | MatchObj (o : MatchObject).

Record CreateObject := {
  c_multiple : option (list Element);
  c_related : option (list Element);
  c_node : GraphElementObject;
}.

Inductive CreateI :=
  | CreateString (s : string)
  | CreateObj (o : CreateObject).

Inductive SetI :=
  | SetString (s : string)
  | SetObj (identifier : string) (properties : dict value).

Record DeleteObject := {
  d_identifiers : option OneOrMany;
  d_literal : option string;
  d_detach : bool;
}.

Inductive DeleteI :=
  | DeleteString (s : string)
  | DeleteObj (o : DeleteObject).

Record RemoveObject := {
  r_identifier : string;
  r_properties : option OneOrMany;
  r_labels : option OneOrMany;
}.

Inductive RemoveI :=
  | RemoveString (s : string)
  | RemoveObj (o : RemoveObject).

Inductive ReturnI :=
  | ReturnString (s : string)
  | ReturnObjects (l : list (string * option string))
  | ReturnStrings (l : list string).

Inductive LimitI :=
  | LimitString (s : string)
  | LimitNumber (n : Z).

(** [ParameterI]: one constructor per key tested by the [is...Parameter]
    guards of [setStatementByParameters]. *)
Inductive ParameterI :=
  | Raw (raw : string)
  | Match (match_ : MatchI)
  | Create (create : CreateI)
  | Merge (merge : CreateI)
  | Set_ (set : SetI)
  | Delete (delete : DeleteI)
  | Remove (remove : RemoveI)
  | Return (return_ : ReturnI)
  | Limit (limit : LimitI)
  | With (with_ : OneOrMany).

(** ** Errors *)

Inductive Mode := ModeObject | ModeText.
Inductive Operator := OpEquals | OpIn.

Definition dquote : string := String (ascii_of_nat 34) EmptyString.

(** The [actual] datum attached to a [NeogmaConstraintError]. *)
Inductive ErrorData :=
  | NoData
  | ActualModeOperator (mode : Mode) (operator : Operator)
  | ActualCreate (create : CreateObject).

Record NeogmaConstraintError := mkError {
  message : string;
  data : ErrorData;
}.

Inductive result (A : Type) :=
  | Ok (a : A)
  | Throw (e : NeogmaConstraintError).
Arguments Ok {A} a.
Arguments Throw {A} e.

Definition objectModeMessage : string :=
  "The only operator which is supported for object mode is "
  +:+ dquote +:+ "equals" +:+ dquote.

Definition relatedMessage : string :=
  "even argument of related is not a relationship".

Definition createMessage : string := "Invanid create parameter".

(** ** The compiler monad: the shared table as state, and exceptions *)

Abbreviation BindParam := (gmap string value).

Definition M (A : Type) : Type := BindParam -> BindParam * result A.

Definition ret {A} (a : A) : M A := fun bp => (bp, Ok a).

Definition throw {A} (e : NeogmaConstraintError) : M A :=
  fun bp => (bp, Throw e).

Definition bind {A B} (m : M A) (f : A -> M B) : M B :=
  fun bp =>
    match m bp with
    | (bp', Ok a) => f a bp'
    | (bp', Throw e) => (bp', Throw e)
    end.

Notation "x <- m ;; k" := (bind m (fun x => k))
  (at level 100, m at next level, right associativity).

(** A pure computation that may throw, run inside the monad. *)
Definition lift {A} (r : result A) : M A := fun bp => (bp, r).

(** [xs.map(f)] for an [f] with effects: left to right. *)
Fixpoint mapM {A B} (f : A -> M B) (xs : list A) : M (list B) :=
  match xs with
  | [] => ret []
  | x :: xs' => y <- f x ;; ys <- mapM f xs' ;; ret (y :: ys)
  end.

(** The same for a pure [f] that may throw. *)
Fixpoint mapR {A B} (f : A -> result B) (xs : list A) : result (list B) :=
  match xs with
  | [] => Ok []
  | x :: xs' =>
      match f x with
      | Throw e => Throw e
      | Ok y =>
          match mapR f xs' with
          | Throw e => Throw e
          | Ok ys => Ok (y :: ys)
          end
      end
  end.

(** ** Strings: joining and whitespace *)

(** [parts.join(sep)] on an array of strings *)
Definition join (sep : string) (parts : list string) : string :=
  String.concat sep parts.

Definition newline : string := String (ascii_of_nat 10) EmptyString.

(** The class [\s] on code units below 256: tab, line feed, vertical tab,
    form feed, carriage return, space and no-break space. *)
Definition isWhitespace (c : ascii) : bool :=
  let n := nat_of_ascii c in
  ((9 <=? n) && (n <=? 13) || (n =? 32) || (n =? 160))%nat.

(** [s.replace(/\s+/g, ' ')]: every maximal run of whitespace becomes one
    space; [inRun] tells that the previous character was whitespace. *)
Fixpoint replaceWhitespaceFrom (inRun : bool) (s : string) : string :=
  match s with
  | EmptyString => EmptyString
  | String c rest =>
      if isWhitespace c
      then
        if inRun then replaceWhitespaceFrom true rest
        else String " " (replaceWhitespaceFrom true rest)
      else String c (replaceWhitespaceFrom false rest)
  end.

Definition replaceWhitespace (s : string) : string :=
  replaceWhitespaceFrom false s.

(** [Array.prototype.join]: an [undefined] element is rendered as the empty
    string. *)
Definition joinParts (sep : string) (parts : list (option string)) : string :=
  join sep (List.map (default "") parts).

Section Compiler.

(** Modelled from the spec: [BindParam] is not among the sources.  The
    sanitizing of a base name into a valid placeholder identifier is left
    open by the spec and is a parameter here. *)
Variable sanitize : string -> string.

(** Modelled from the spec: [BindParam.acquire(existing?)] returns the
    existing table unchanged, otherwise a new empty table. *)
Definition acquire (existing : option BindParam) : BindParam :=
  match existing with
  | Some bp => bp
  | None => ∅
  end.

Definition isFree (bp : BindParam) (name : string) : bool :=
  bool_decide (bp !! name = None).

(** Modelled from the spec: the name resolved by
    [BindParam.getUniqueNameAndAdd]: the sanitized base name when it is not
    in the table, otherwise the sanitized base name followed by the first
    numeric suffix 1, 2, ... that is not in the table.  A table of [n]
    entries cannot hold all of the suffixes 1 .. n+1, so the search is
    bounded; the last branch is never taken (see [getUniqueName_free]). *)
Definition getUniqueName (bp : BindParam) (baseName : string) : string :=
  let candidate := sanitize baseName in
  if isFree bp candidate then candidate
  else
    match
      List.find (fun k => isFree bp (candidate +:+ pretty k))
                (seq 1 (S (size bp)))
    with
    | Some k => candidate +:+ pretty k
    | None => candidate
    end.

(** Modelled from the spec: [BindParam.getUniqueNameAndAdd(baseName, value)]
    registers the value under the resolved name and returns that name. *)
Definition getUniqueNameAndAdd (baseName : string) (v : value)
    (bp : BindParam) : BindParam * string :=
  let name := getUniqueName bp baseName in
  (<[name := v]> bp, name).

(** ** Where *)

Record IdentifierPropertyData := {
  ipd_identifier : string;
  ipd_property : string;
  bindParamName : string;
  operator : Operator;
}.

(** The fields of a [Where]; its [bindParam] is the shared table. *)
Record Where := {
  rawParams : list WhereParamsByIdentifierI;
  identifierPropertyData : list IdentifierPropertyData;
}.

(** [Where.getNameAndAddToParams] *)
Definition getNameAndAddToParams (prefix : string) (v : value)
    (bp : BindParam) : BindParam * string :=
  let '(bp', name) := getUniqueNameAndAdd prefix v bp in
  (bp', "$" +:+ name).

(** The body of the inner loop of [setBindParamNames]: a supported value is
    registered with operator [equals], an [Op.in] wrapper with operator
    [in]; there is no third branch. *)
Definition setBindParamName (nodeIdentifier : string)
    (st : BindParam * list IdentifierPropertyData)
    (entry : string * value) : BindParam * list IdentifierPropertyData :=
  let '(bp, ipd) := st in
  let '(property, v) := entry in
  if isNeo4jSupportedTypes v then
    let '(bp', bindParamName) := getNameAndAddToParams property v bp in
    (bp', ipd ++ [{| ipd_identifier := nodeIdentifier;
                     ipd_property := property;
                     bindParamName := bindParamName;
                     operator := OpEquals |}])
  else if isWhereIn v then
    let '(bp', bindParamName) :=
      getNameAndAddToParams property (getOpIn v) bp in
    (bp', ipd ++ [{| ipd_identifier := nodeIdentifier;
                     ipd_property := property;
                     bindParamName := bindParamName;
                     operator := OpIn |}])
  else st.

(** The two nested [for .. in] loops over the merged parameters. *)
Definition setBindParamNamesLoop (params : WhereParamsByIdentifierI)
    (st : BindParam * list IdentifierPropertyData)
    : BindParam * list IdentifierPropertyData :=
  fold_left
    (fun st entry => fold_left (setBindParamName entry.1) entry.2 st)
    params st.

(** [Where.setBindParamNames]: the raw parameters are merged with
    [Object.assign]; [identifierPropertyData] is pushed to, never reset. *)
Definition setBindParamNames (w : Where) (bp : BindParam)
    : BindParam * Where :=
  let params := dict_assign_all (rawParams w) in
  let '(bp', ipd) :=
    setBindParamNamesLoop params (bp, identifierPropertyData w) in
  (bp', {| rawParams := rawParams w; identifierPropertyData := ipd |}).

(** [Where.addParams] *)
Definition addParams (w : Where) (whereParams : WhereParamsByIdentifierI)
    (bp : BindParam) : BindParam * Where :=
  setBindParamNames
    {| rawParams := rawParams w ++ [whereParams];
       identifierPropertyData := identifierPropertyData w |} bp.

(** [new Where(whereParams, bindParam)]: the table is acquired, then the
    parameters are added; the result is the table and the new Where. *)
Definition newWhere (whereParams : WhereParamsByIdentifierI)
    (bindParam : option BindParam) : BindParam * Where :=
  addParams {| rawParams := []; identifierPropertyData := [] |}
    whereParams (acquire bindParam).

(** [operatorForStatement] inside [Where.getStatement] *)
Definition operatorForStatement (mode : Mode) (op : Operator)
    : result string :=
  match mode with
  | ModeObject =>
      match op with
      | OpEquals => Ok ":"
      | _ => Throw (mkError objectModeMessage (ActualModeOperator mode op))
      end
  | ModeText =>
      Ok (match op with OpEquals => "=" | OpIn => "IN" end)
  end.

(** One element of [statementParts] *)
Definition statementPart (mode : Mode) (d : IdentifierPropertyData)
    : result string :=
  match operatorForStatement mode (operator d) with
  | Throw e => Throw e
  | Ok op =>
      Ok ((match mode with
           | ModeText => ipd_identifier d +:+ "." +:+ ipd_property d
           | ModeObject => ipd_property d
           end) +:+ " " +:+ op +:+ " " +:+ bindParamName d)
  end.

(** [Where.getStatement] *)
Definition getStatement (w : Where) (mode : Mode) : result string :=
  match mapR (statementPart mode) (identifierPropertyData w) with
  | Throw e => Throw e
  | Ok statementParts =>
      match mode with
      | ModeText => Ok (join " AND " statementParts)
      | ModeObject => Ok ("{ " +:+ join ", " statementParts +:+ " }")
      end
  end.

(** ** QueryRunner: the fragment renderers used by the QueryBuilder *)

(** The [inner] argument of [getNodeStatement] and
    [getRelationshipStatement]: a Where, or properties to register in the
    shared table. *)
Inductive Inner :=
  | InnerWhere (w : Where)
  | InnerProperties (properties : dict value).

(** Modelled from the spec: the property-serialization routine of
    [QueryRunner], which is not among the sources.  It registers one bind
    entry per property and returns the inline fragment
    [{ k1: $v1, k2: $v2 }]. *)
Definition getPropertiesWithParams (properties : dict value) : M string :=
  parts <- mapM (fun kv bp =>
                   let '(bp', name) := getUniqueNameAndAdd kv.1 kv.2 bp in
                   (bp', Ok (kv.1 +:+ ": $" +:+ name)))
                properties ;;
  ret ("{ " +:+ join ", " parts +:+ " }").

(** Modelled from the spec: the inline part of a graph element; a Where is
    rendered in object mode. *)
Definition getInnerString (inner : option Inner) : M string :=
  match inner with
  | None => ret ""
  | Some (InnerWhere w) =>
      s <- lift (getStatement w ModeObject) ;; ret (" " +:+ s)
  | Some (InnerProperties properties) =>
      s <- getPropertiesWithParams properties ;; ret (" " +:+ s)
  end.

(** Modelled from the spec: [QueryRunner.getNodeStatement], which is not
    among the sources, renders [(identifier:Label {...})]. *)
Definition getNodeStatement (identifier label : string)
    (inner : option Inner) : M string :=
  i <- getInnerString inner ;;
  ret ("(" +:+ identifier +:+ ":" +:+ label +:+ i +:+ ")").

Definition arrowLeft (direction : option Direction) : string :=
  match direction with
  | Some DirIn => "<-"
  | _ => "-"
  end.

Definition arrowRight (direction : option Direction) : string :=
  match direction with
  | Some DirOut => "->"
  | _ => "-"
  end.

(** Modelled from the spec: [QueryRunner.getRelationshipStatement], which is
    not among the sources, renders [-[identifier:TYPE {...}]->]. *)
Definition getRelationshipStatement (direction : option Direction)
    (identifier : string) (name : option string) (inner : option Inner)
    : M string :=
  i <- getInnerString inner ;;
  ret (arrowLeft direction +:+ "[" +:+ identifier +:+ ":"
       +:+ default "" name +:+ i +:+ "]" +:+ arrowRight direction).

(** Modelled from the spec: the [statement] of [QueryRunner.getSetParts],
    which is not among the sources: [SET identifier.k1 = $v1, ...], one bind
    entry per property. *)
Definition getSetPartsStatement (data : dict value) (identifier : string)
    : M string :=
  parts <- mapM (fun kv bp =>
                   let '(bp', name) := getUniqueNameAndAdd kv.1 kv.2 bp in
                   (bp', Ok (identifier +:+ "." +:+ kv.1 +:+ " = $" +:+ name)))
                data ;;
  ret ("SET " +:+ join ", " parts).

(** ** QueryBuilder

    The guards [isNodeWithLabel], [isNodeWithModel], [isNodeWithWhere],
    [isNodeWithProperties], [isMatchMultiple], [isDeleteWithIdentifier] and
    the like come from [QueryBuilder.types], which is not among the sources.
    Modelled from the spec: each guard tests that the field it is named
    after is present. *)

Definition present {A} (field : option A) : bool :=
  match field with
  | Some _ => true
  | None => false
  end.

(** Modelled from the spec: the relationship-shape check [isRelationship] of
    [QueryBuilder.types].  A relationship is a raw string or an object with
    a direction, the two forms [getRelationshipString] renders. *)
Definition isRelationship (element : Element) : bool :=
  match element with
  | ElString _ => true
  | ElObject o => present (direction o)
  end.

(** [QueryBuilder.getNodeString] *)
Definition getNodeString (node : Element) : M string :=
  match node with
  | ElString s => ret s
  | ElObject o =>
      let label :=
        match label o, model o with
        | Some l, _ => l
        | None, Some m => getLabel m
        | None, None => ""
        end in
      match where_ o, properties o with
      | Some w, _ =>
          fun bp =>
            let '(bp', inner) := newWhere [(identifier o, w)] (Some bp) in
            getNodeStatement (identifier o) label (Some (InnerWhere inner)) bp'
      | None, Some ps =>
          getNodeStatement (identifier o) label (Some (InnerProperties ps))
      | None, None => getNodeStatement (identifier o) label None
      end
  end.

(** [QueryBuilder.getRelationshipString] *)
Definition getRelationshipString (relationship : Element) : M string :=
  match relationship with
  | ElString s => ret s
  | ElObject o =>
      match where_ o, properties o with
      | Some w, _ =>
          fun bp =>
            let '(bp', inner) := newWhere [(identifier o, w)] (Some bp) in
            getRelationshipStatement (direction o) (identifier o) (name o)
              (Some (InnerWhere inner)) bp'
      | None, Some ps =>
          getRelationshipStatement (direction o) (identifier o) (name o)
            (Some (InnerProperties ps))
      | None, None =>
          getRelationshipStatement (direction o) (identifier o) (name o) None
      end
  end.

(** The loop over a [related] array, shared by [getMatchString] and
    [getCreateOrMergeString]: [index % 2] selects the relationship branch,
    which throws when the element is not a relationship. *)
Fixpoint getRelatedParts (index : nat) (related : list Element)
    : M (list string) :=
  match related with
  | [] => ret []
  | element :: rest =>
      part <- (if Nat.odd index
               then
                 if isRelationship element
                 then getRelationshipString element
                 else throw (mkError relatedMessage NoData)
               else getNodeString element) ;;
      parts <- getRelatedParts (S index) rest ;;
      ret (part :: parts)
  end.

(** [match.optional ? 'OPTIONAL' : ''] *)
Definition optionalWord (optional : bool) : string :=
  if optional then "OPTIONAL" else "".

(** [QueryBuilder.getMatchString] *)
Definition getMatchString (match_ : MatchI) : M string :=
  match match_ with
  | MatchString s => ret ("MATCH " +:+ s)
  | MatchObj o =>
      match m_multiple o, m_related o, m_literal o with
      | Some multiple, _, _ =>
          nodes <- mapM getNodeString multiple ;;
          ret (join " " [optionalWord (m_optional o); "MATCH";
                         join ", " nodes])
      | None, Some related, _ =>
          parts <- getRelatedParts 0 related ;;
          ret (join " " [optionalWord (m_optional o); "MATCH";
                         join "" parts])
      | None, None, Some literal =>
          node <- getNodeString literal ;;
          ret (join " " [optionalWord (m_optional o); "MATCH " +:+ node])
      | None, None, None =>
          node <- getNodeString (ElObject (m_node o)) ;;
          ret (join " " [optionalWord (m_optional o); "MATCH " +:+ node])
      end
  end.

Inductive CreateMode := ModeCreate | ModeMerge.

(** [QueryBuilder.getCreateOrMergeString] *)
Definition getCreateOrMergeString (create : CreateI) (mode : CreateMode)
    : M string :=
  let createOrMerge :=
    match mode with ModeMerge => "MERGE" | ModeCreate => "CREATE" end in
  match create with
  | CreateString s => ret (createOrMerge +:+ " " +:+ s)
  | CreateObj o =>
      match c_multiple o, c_related o with
      | Some multiple, _ =>
          nodes <- mapM getNodeString multiple ;;
          ret (join " " [createOrMerge; join ", " nodes])
      | None, Some related =>
          parts <- getRelatedParts 0 related ;;
          ret (join " " [createOrMerge; join "" parts])
      | None, None =>
          match label (c_node o), model (c_node o) with
          | Some l, _ =>
              node <- getNodeString
                        (ElObject
                           {| identifier := identifier (c_node o);
                              label := Some l; model := None;
                              where_ := None; properties := None;
                              direction := None; name := None |}) ;;
              ret (join " " [createOrMerge; node])
          | None, Some m =>
              node <- getNodeString
                        (ElObject
                           {| identifier := identifier (c_node o);
                              label := None; model := Some m;
                              where_ := None; properties := None;
                              direction := None; name := None |}) ;;
              ret (join " " [createOrMerge; node])
          | None, None =>
              throw (mkError createMessage (ActualCreate o))
          end
      end
  end.

(** [QueryBuilder.getSetString] *)
Definition getSetString (set : SetI) : M string :=
  match set with
  | SetString s => ret ("SET " +:+ s)
  | SetObj identifier properties =>
      getSetPartsStatement properties identifier
  end.

(** [dlt.detach ? 'DETACH ' : ''] *)
Definition detachWord (detach : bool) : string :=
  if detach then "DETACH " else "".

(** [QueryBuilder.getDeleteString]; [None] is the [undefined] returned when
    the function falls off its end. *)
Definition getDeleteString (dlt : DeleteI) : option string :=
  match dlt with
  | DeleteString s => Some ("DELETE " +:+ s)
  | DeleteObj o =>
      match d_identifiers o, d_literal o with
      | Some ids, _ =>
          let identifiers := toArray ids in
          Some (detachWord (d_detach o) +:+ "DELETE "
                +:+ join ", " identifiers)
      | None, Some literal =>
          Some (detachWord (d_detach o) +:+ "DELETE " +:+ literal)
      | None, None => None
      end
  end.

(** [QueryBuilder.getRemoveString]; [None] is [undefined] as above. *)
Definition getRemoveString (remove : RemoveI) : option string :=
  match remove with
  | RemoveString s => Some ("REMOVE " +:+ s)
  | RemoveObj o =>
      match r_properties o, r_labels o with
      | Some ps, _ =>
          let properties := toArray ps in
          let propertiesWithIdentifier :=
            List.map (fun p => r_identifier o +:+ "." +:+ p) properties in
          Some ("REMOVE " +:+ join ", " propertiesWithIdentifier)
      | None, Some ls =>
          let labels := toArray ls in
          Some ("REMOVE " +:+ r_identifier o +:+ ":" +:+ join ":" labels)
      | None, None => None
      end
  end.

(** [QueryBuilder.getReturnString]; an empty property is falsy. *)
Definition getReturnString (rtn : ReturnI) : string :=
  match rtn with
  | ReturnString s => "RETURN " +:+ s
  | ReturnObjects l =>
      let returnString :=
        join ", "
          (List.map (fun v =>
                       v.1 +:+ match v.2 with
                               | Some property =>
                                   if String.eqb property "" then ""
                                   else "." +:+ property
                               | None => ""
                               end) l) in
      "RETURN " +:+ returnString
  | ReturnStrings l => "RETURN " +:+ join ", " l
  end.

(** [QueryBuilder.getLimitString] *)
Definition getLimitString (limit : LimitI) : M string :=
  limitString <-
    match limit with
    | LimitString s => ret s
    | LimitNumber n =>
        fun bp =>
          let '(bp', name) := getUniqueNameAndAdd "limit" (int n) bp in
          (bp', Ok ("$" +:+ name))
    end ;;
  ret ("LIMIT " +:+ limitString).

(** [QueryBuilder.getWithString] *)
Definition getWithString (wth : OneOrMany) : string :=
  "WITH " +:+ join ", " (toArray wth).

(** The element pushed to [statementParts] for one parameter; it is
    [undefined] ([None]) when [getDeleteString] or [getRemoveString] return
    nothing. *)
Definition getStatementPart (param : ParameterI) : M (option string) :=
  match param with
  | Raw raw => ret (Some raw)
  | Match m => s <- getMatchString m ;; ret (Some s)
  | Create c => s <- getCreateOrMergeString c ModeCreate ;; ret (Some s)
  | Merge c => s <- getCreateOrMergeString c ModeMerge ;; ret (Some s)
  | Set_ st => s <- getSetString st ;; ret (Some s)
  | Delete d => ret (getDeleteString d)
  | Remove r => ret (getRemoveString r)
  | Return r => ret (Some (getReturnString r))
  | Limit l => s <- getLimitString l ;; ret (Some s)
  | With w => ret (Some (getWithString w))
  end.

(** [QueryBuilder.setStatementByParameters] *)
Definition setStatementByParameters (parameters : list ParameterI)
    : M string :=
  statementParts <- mapM getStatementPart parameters ;;
  ret (replaceWhitespace (joinParts newline statementParts)).

(** [new QueryBuilder(parameters, config)]: the statement and the table
    exposed by [getStatement] and [getBindParam]. *)
Definition newQueryBuilder (parameters : list ParameterI)
    (config : option BindParam) : BindParam * result string :=
  setStatementByParameters parameters (default ∅ config).

(** ** Definitions used to state the properties *)

(** The text-mode fragment of one accumulated tuple. *)
Definition textPart (d : IdentifierPropertyData) : string :=
  (ipd_identifier d +:+ "." +:+ ipd_property d) +:+ " "
  +:+ (match operator d with OpEquals => "=" | OpIn => "IN" end)
  +:+ " " +:+ bindParamName d.

(** The parameters of the running example: a.p1 = "x", a.p2 = 5. *)
Definition exampleParams : WhereParamsByIdentifierI :=
  [("a", [("p1", VString "x"); ("p2", VNumber 5)])].

(** A value that is neither supported nor an [Op.in] wrapper. *)
Definition isSkipped (v : value) : bool :=
  negb (isNeo4jSupportedTypes v) && negb (isWhereIn v).

(** The merged parameters without the attributes whose value is skipped. *)
Definition withoutSkipped (params : WhereParamsByIdentifierI)
    : WhereParamsByIdentifierI :=
  List.map (fun entry =>
              (entry.1, List.filter (fun pv => negb (isSkipped pv.2)) entry.2))
           params.

(** The fragments of a sequence of clauses, rendered in the given order on
    the shared table: the part at position [i] comes from the parameter at
    position [i], on the table left by the parameters before it. *)
Inductive renderedInOrder (render : ParameterI -> M (option string))
    : BindParam -> list ParameterI -> list (option string) -> BindParam
      -> Prop :=
  | rendered_nil bp : renderedInOrder render bp [] [] bp
  | rendered_cons bp param params bp1 part parts bp2 :
      render param bp = (bp1, Ok part) ->
      renderedInOrder render bp1 params parts bp2 ->
      renderedInOrder render bp (param :: params) (part :: parts) bp2.

(** A string is whitespace-normalized when its only whitespace characters
    are single spaces: no tab or line break, no two spaces in a row.
    [afterSpace] tells that the previous character was a space. *)
Fixpoint normalizedFrom (afterSpace : bool) (s : string) : bool :=
  match s with
  | EmptyString => true
  | String c rest =>
      if isWhitespace c
      then Ascii.eqb c " " && negb afterSpace && normalizedFrom true rest
      else normalizedFrom false rest
  end.

Definition normalized (s : string) : bool := normalizedFrom false s.




(** Example data. *)
Definition exampleNode (identifier label : string)
    (w : option WhereParamsI) : GraphElementObject :=
  {| identifier := identifier; label := Some label; model := None;
     where_ := w; properties := None; direction := None; name := None |}.

Definition exampleMatchNode (node : GraphElementObject) : MatchObject :=
  {| m_multiple := None; m_related := None; m_literal := None;
     m_optional := false; m_node := node |}.

Definition exampleMatchRelated (related : list Element) : MatchObject :=
  {| m_multiple := None; m_related := Some related; m_literal := None;
     m_optional := false; m_node := exampleNode "" "" None |}.

Definition exampleIn : value :=
  VObject (Some (VArray [VNumber 1; VNumber 2; VNumber 3])) [].

(** Every odd-indexed element of a [related] array, counted from [index],
    passes the relationship-shape check. *)
Fixpoint oddAreRelationships (index : nat) (related : list Element) : bool :=
  match related with
  | [] => true
  | element :: rest =>
      (if Nat.odd index then isRelationship element else true)
      && oddAreRelationships (S index) rest
  end.

(** The fragments of the elements of a [related] array, each rendered by
    its position: a node at an even index, a relationship at an odd one. *)
Fixpoint renderElements (index : nat) (related : list Element)
    : M (list string) :=
  match related with
  | [] => ret []
  | element :: rest =>
      part <- (if Nat.odd index then getRelationshipString element
               else getNodeString element) ;;
      parts <- renderElements (S index) rest ;;
      ret (part :: parts)
  end.

(** Concatenation with no separator. *)
Definition concatenate (parts : list string) : string :=
  fold_right String.append "" parts.

Definition createWord (mode : CreateMode) : string :=
  match mode with ModeMerge => "MERGE" | ModeCreate => "CREATE" end.

Definition exampleCreateRelated (related : list Element) : CreateObject :=
  {| c_multiple := None; c_related := Some related;
     c_node := exampleNode "" "" None |}.

(** *** Placeholders of a statement *)

(** The characters of a placeholder name: letters, digits, underscore. *)
Definition isIdentChar (c : ascii) : bool :=
  let n := nat_of_ascii c in
  ((48 <=? n) && (n <=? 57) || (65 <=? n) && (n <=? 90)
   || (97 <=? n) && (n <=? 122) || (n =? 95))%nat.

Definition isDollar (c : ascii) : bool := Ascii.eqb c "$".

(** The longest prefix made of name characters. *)
Fixpoint takeIdent (s : string) : string :=
  match s with
  | EmptyString => EmptyString
  | String c rest =>
      if isIdentChar c then String c (takeIdent rest) else EmptyString
  end.

(** The placeholders occurring in a text, in order: after each dollar sign,
    the name that follows it. *)
Fixpoint placeholders (s : string) : list string :=
  match s with
  | EmptyString => []
  | String c rest =>
      if isDollar c then takeIdent rest :: placeholders rest
      else placeholders rest
  end.

Definition dollarFree (s : string) : bool :=
  forallb (fun c => negb (isDollar c)) (list_ascii_of_string s).

Definition allIdent (s : string) : bool :=
  forallb isIdentChar (list_ascii_of_string s).

(** A sanitizer that keeps the name characters, as an instance. *)
Fixpoint keepIdent (s : string) : string :=
  match s with
  | EmptyString => EmptyString
  | String c rest =>
      if isIdentChar c then String c (keepIdent rest) else keepIdent rest
  end.

(** *** The text a caller supplies in a clause and that is emitted as it
    is: raw fragments, identifiers, labels, relationship names, attribute
    and property names. *)

Definition optionText (o : option string) : list string :=
  match o with
  | Some s => [s]
  | None => []
  end.

Definition dictKeys {A} (o : option (dict A)) : list string :=
  match o with
  | Some d => List.map fst d
  | None => []
  end.

Definition elementTexts (element : Element) : list string :=
  match element with
  | ElString s => [s]
  | ElObject o =>
      identifier o :: optionText (label o)
      ++ optionText (getLabel <$> model o)
      ++ dictKeys (where_ o) ++ dictKeys (properties o)
      ++ optionText (name o)
  end.

Definition elementsTexts (elements : option (list Element)) : list string :=
  match elements with
  | Some l => List.concat (List.map elementTexts l)
  | None => []
  end.

Definition matchTexts (match_ : MatchI) : list string :=
  match match_ with
  | MatchString s => [s]
  | MatchObj o =>
      elementsTexts (m_multiple o) ++ elementsTexts (m_related o)
      ++ elementsTexts (option_map (fun e => [e]) (m_literal o))
      ++ elementTexts (ElObject (m_node o))
  end.

Definition createTexts (create : CreateI) : list string :=
  match create with
  | CreateString s => [s]
  | CreateObj o =>
      elementsTexts (c_multiple o) ++ elementsTexts (c_related o)
      ++ elementTexts (ElObject (c_node o))
  end.

Definition oneOrManyTexts (x : option OneOrMany) : list string :=
  match x with
  | Some v => toArray v
  | None => []
  end.

Definition parameterTexts (param : ParameterI) : list string :=
  match param with
  | Raw raw => [raw]
  | Match m => matchTexts m
  | Create c | Merge c => createTexts c
  | Set_ (SetString s) => [s]
  | Set_ (SetObj identifier properties) =>
      identifier :: List.map fst properties
  | Delete (DeleteString s) => [s]
  | Delete (DeleteObj o) =>
      oneOrManyTexts (d_identifiers o) ++ optionText (d_literal o)
  | Remove (RemoveString s) => [s]
  | Remove (RemoveObj o) =>
      r_identifier o :: oneOrManyTexts (r_properties o)
      ++ oneOrManyTexts (r_labels o)
  | Return (ReturnString s) => [s]
  | Return (ReturnObjects l) =>
      List.concat (List.map (fun v => v.1 :: optionText v.2) l)
  | Return (ReturnStrings l) => l
  | Limit (LimitString s) => [s]
  | Limit (LimitNumber _) => []
  | With w => toArray w
  end.

Definition parametersTexts (parameters : list ParameterI) : list string :=
  List.concat (List.map parameterTexts parameters).

(** A query with a predicate and two integer limits on one table. *)
Definition exampleQuery : list ParameterI :=
  [Match (MatchObj (exampleMatchNode
                      (exampleNode "a" "A" (Some [("p", VString "x")]))));
   Limit (LimitNumber 5);
   Limit (LimitNumber 6);
   Return (ReturnStrings ["a"])].

Definition exampleStatement : string :=
  " MATCH (a:A { p : $p }) LIMIT $limit LIMIT $limit1 RETURN a".

(** *** Predicates of the proofs *)

(** The text that follows does not continue a name. *)
Definition startsNonIdent (t : string) : bool :=
  match t with
  | EmptyString => true
  | String c _ => negb (isIdentChar c)
  end.

(** [tok s names]: the placeholders of [s] are [names], whatever text
    follows [s]; [tokW] is the same when the text that follows does not
    continue a name. *)
Definition tok (s : string) (names : list string) : Prop :=
  forall t, placeholders (s +:+ t) = names ++ placeholders t.

Definition tokW (s : string) (names : list string) : Prop :=
  forall t, startsNonIdent t = true ->
            placeholders (s +:+ t) = names ++ placeholders t.

(** [freshNames bp names bp']: the table grew from [bp] to [bp'], and
    [names] are distinct names that were not in [bp] and are in [bp']. *)
Definition freshNames (bp : BindParam) (names : list string)
    (bp' : BindParam) : Prop :=
  bp ⊆ bp'
  /\ NoDup names
  /\ Forall (fun n => bp !! n = None /\ is_Some (bp' !! n)) names.

(** [yields P bp r]: when the run [r], started on the table [bp], returns
    a result, that result satisfies [P] with a list of names that were
    registered during the run. *)
Definition yields {A} (P : A -> list string -> Prop) (bp : BindParam)
    (r : BindParam * result A) : Prop :=
  match r with
  | (bp', Ok a) => exists names, P a names /\ freshNames bp names bp'
  | (_, Throw _) => True
  end.

(** The fragments of a list, each with its names. *)
Definition eachWith {B} (P : B -> list string -> Prop)
    (parts : list B) (names : list string) : Prop :=
  exists namess, Forall2 P parts namess /\ names = List.concat namess.

Abbreviation dollarFreeAll := (Forall (fun t => dollarFree t = true)).

(** An accumulated tuple whose placeholder is the registered name [n]. *)
Definition ipdNamed (d : IdentifierPropertyData) (n : string) : Prop :=
  bindParamName d = "$" +:+ n
  /\ allIdent n = true
  /\ dollarFree (ipd_property d) = true.

(** The names of a statement part that is [undefined] or a string. *)
Definition partWith (part : option string) (names : list string) : Prop :=
  tokW (default "" part) names.

(** *** Further definitions used to state properties *)

(** The operator [setBindParamNames] derives from a value, if any. *)
Definition operatorOf (v : value) : option Operator :=
  if isNeo4jSupportedTypes v then Some OpEquals
  else if isWhereIn v then Some OpIn
  else None.

(** The value registered for an attribute: the value itself, or the list
    inside an [Op.in] wrapper. *)
Definition registeredValue (v : value) : value :=
  if isNeo4jSupportedTypes v then v else getOpIn v.

(** What one run of the loops of [setBindParamNames] appends for the
    merged parameters, in enumeration order: identifier, attribute and
    operator of each tuple, with the value to register. *)
Definition expectedEntries (params : WhereParamsByIdentifierI)
    : list (string * string * Operator * value) :=
  flat_map (fun entry =>
              flat_map (fun pv =>
                          match operatorOf pv.2 with
                          | Some op =>
                              [(entry.1, pv.1, op, registeredValue pv.2)]
                          | None => []
                          end) entry.2)
           params.

Definition tupleKey (d : IdentifierPropertyData)
    : string * string * Operator :=
  (ipd_identifier d, ipd_property d, operator d).

(** A tuple with the given identifier, attribute and operator whose
    placeholder names an entry of the table that holds the given value. *)
Definition tupleIs (bp : BindParam) (d : IdentifierPropertyData)
    (e : string * string * Operator * value) : Prop :=
  tupleKey d = e.1
  /\ exists n, bindParamName d = "$" +:+ n /\ bp !! n = Some e.2.

(** [o[k]] *)
Definition dict_get {A} (k : string) (o : dict A) : option A :=
  snd <$> List.find (fun kv => String.eqb k kv.1) o.

(** Whether a text read by [replaceWhitespaceFrom inRun] ends inside a run
    of whitespace. *)
Fixpoint endsInRun (inRun : bool) (s : string) : bool :=
  match s with
  | EmptyString => inRun
  | String c rest => endsInRun (isWhitespace c) rest
  end.

(** The three errors of the sources. *)
Definition knownError (e : NeogmaConstraintError) : Prop :=
  e = mkError objectModeMessage (ActualModeOperator ModeObject OpIn)
  \/ e = mkError relatedMessage NoData
  \/ exists o, e = mkError createMessage (ActualCreate o).

(** [safe m]: the run [m] only adds to the table, whether it returns or
    throws, and throws nothing but the known errors. *)
Definition safe {A} (m : M A) : Prop :=
  forall bp,
    bp ⊆ (m bp).1 /\ forall e, (m bp).2 = Throw e -> knownError e.

Definition isPatternClause (param : ParameterI) : bool :=
  match param with
  | Match _ | Create _ | Merge _ => true
  | _ => false
  end.

(** The clause forms that reach the table: the object forms of Match,
    Create, Merge and Set, and an integer Limit. *)
Definition usesTable (param : ParameterI) : bool :=
  match param with
  | Match (MatchObj _) | Create (CreateObj _) | Merge (CreateObj _)
  | Set_ (SetObj _ _) | Limit (LimitNumber _) => true
  | _ => false
  end.

(** A Return object without its property. *)
Definition withoutEmptyProperty (v : string * option string)
    : string * option string :=
  match v.2 with
  | Some property => if String.eqb property "" then (v.1, None) else v
  | None => v
  end.

(** A graph element object read as a bare node: identifier, and label or
    model. *)
Definition bareNode (o : GraphElementObject) : GraphElementObject :=
  {| identifier := identifier o;
     label := label o;
     model := match label o with Some _ => None | None => model o end;
     where_ := None; properties := None; direction := None; name := None |}.

(** The invariant of a Where on the shared table: its placeholders are
    pairwise distinct names of entries of the table. *)
Definition placeholdersRegistered (bp : BindParam) (w : Where) : Prop :=
  exists names,
    List.map bindParamName (identifierPropertyData w)
    = List.map (String.append "$") names
    /\ NoDup names
    /\ Forall (fun n => is_Some (bp !! n)) names.

(** * Properties *)

Ltac monad_unfold := unfold bind, ret, throw, lift in *.

(** ** The bind parameter table *)

Lemma getUniqueName_free (bp : BindParam) (baseName : string) :
  bp !! getUniqueName bp baseName = None.
Proof.
  unfold getUniqueName, isFree.
  case_bool_decide as Hc; [done|].
  destruct (find _ _) as [k|] eqn:Hfind.
  - apply find_some in Hfind as [_ Hk].
    by apply bool_decide_eq_true in Hk.
  - exfalso.
    set (c := sanitize baseName) in *.
    set (names := (fun k : nat => c +:+ pretty k) <$> seq 1 (S (size bp))).
    assert (NoDup names) as Hnd.
    { apply NoDup_fmap_2; [|apply NoDup_seq].
      intros k1 k2 Heq. apply (inj (String.app c)) in Heq.
      by apply (inj pretty) in Heq. }
    assert (list_to_set names ⊆@{gset string} dom bp) as Hsub.
    { intros x. rewrite elem_of_list_to_set. unfold names.
      rewrite list_elem_of_fmap. intros (k & -> & Hk).
      apply elem_of_dom.
      apply list_elem_of_In in Hk.
      pose proof (find_none _ _ Hfind k Hk) as Hfalse. simpl in Hfalse.
      apply bool_decide_eq_false in Hfalse.
      by apply not_eq_None_Some. }
    apply subseteq_size in Hsub.
    rewrite size_list_to_set, size_dom in Hsub by done.
    unfold names in Hsub. rewrite length_fmap, length_seq in Hsub. lia.
Qed.

Lemma getUniqueNameAndAdd_spec baseName v (bp bp' : BindParam) name :
  getUniqueNameAndAdd baseName v bp = (bp', name) ->
  bp !! name = None /\ bp' = <[name := v]> bp.
Proof.
  unfold getUniqueNameAndAdd. intros [= <- <-].
  split; [apply getUniqueName_free | done].
Qed.

(** ** Delete and Remove *)

(** C8: a Delete clause in identifier form renders [DETACH DELETE] or
    [DELETE] followed by the identifiers joined with a comma and a space,
    for a single identifier as for a list; the identifiers a, b with detach
    render [DETACH DELETE a, b]. *)
Theorem delete_identifier_form :
  (forall ids literal detach,
     getDeleteString
       (DeleteObj {| d_identifiers := Some ids; d_literal := literal;
                     d_detach := detach |})
     = Some ((if detach then "DETACH " else "") +:+ "DELETE "
             +:+ join ", " (toArray ids)))
  /\ (forall identifier literal detach,
        getDeleteString
          (DeleteObj {| d_identifiers := Some (One identifier);
                        d_literal := literal; d_detach := detach |})
        = Some ((if detach then "DETACH " else "") +:+ "DELETE "
                +:+ identifier))
  /\ getDeleteString
       (DeleteObj {| d_identifiers := Some (Many ["a"; "b"]);
                     d_literal := None; d_detach := true |})
     = Some "DETACH DELETE a, b".
Proof.
  split; [|split].
  - intros ids literal detach. reflexivity.
  - intros identifier literal detach. reflexivity.
  - reflexivity.
Qed.

(** C9: a Delete or Remove object with none of the recognized fields makes
    the renderer return nothing ([undefined]) and no error is raised, the
    statement part is pushed as it is; Create and Merge throw a constraint
    error carrying the offending value. *)
Theorem unrecognized_shapes :
  (forall detach,
     getDeleteString
       (DeleteObj {| d_identifiers := None; d_literal := None;
                     d_detach := detach |}) = None)
  /\ (forall identifier,
        getRemoveString
          (RemoveObj {| r_identifier := identifier; r_properties := None;
                        r_labels := None |}) = None)
  /\ (forall detach bp,
        getStatementPart
          (Delete (DeleteObj {| d_identifiers := None; d_literal := None;
                                d_detach := detach |})) bp
        = (bp, Ok None))
  /\ (forall identifier bp,
        getStatementPart
          (Remove (RemoveObj {| r_identifier := identifier;
                                r_properties := None; r_labels := None |}))
          bp
        = (bp, Ok None))
  /\ (forall identifier w ps d n mode bp,
        let create :=
          {| c_multiple := None; c_related := None;
             c_node := {| identifier := identifier; label := None;
                          model := None; where_ := w; properties := ps;
                          direction := d; name := n |} |} in
        getCreateOrMergeString (CreateObj create) mode bp
        = (bp, Throw (mkError createMessage (ActualCreate create)))).
Proof.
  repeat split.
Qed.

(** ** Where.getStatement *)

Lemma mapR_Ok_iff {A B} (f : A -> result B) (xs : list A) :
  (exists ys, mapR f xs = Ok ys) <-> Forall (fun x => exists y, f x = Ok y) xs.
Proof.
  induction xs as [|x xs IH]; simpl.
  - split; [constructor | by eexists].
  - split.
    + intros [ys Hys]. destruct (f x) as [y|e] eqn:Hx; [|done].
      destruct (mapR f xs) as [ys'|e] eqn:Hxs; [|done].
      constructor; [by eexists|]. apply IH. by eexists.
    + intros Hall. apply Forall_cons in Hall as [[y Hy] Hxs].
      apply IH in Hxs as [ys Hys]. rewrite Hy, Hys. by eexists.
Qed.

Lemma mapR_total {A B} (f : A -> result B) (g : A -> B) (xs : list A) :
  (forall x, f x = Ok (g x)) -> mapR f xs = Ok (List.map g xs).
Proof.
  intros Hfg. induction xs as [|x xs IH]; simpl; [done|].
  by rewrite Hfg, IH.
Qed.

Lemma mapR_Throw {A B} (f : A -> result B) (xs1 xs2 : list A) x e :
  Forall (fun x => exists y, f x = Ok y) xs1 ->
  f x = Throw e ->
  mapR f (xs1 ++ x :: xs2) = Throw e.
Proof.
  intros Hall Hx. induction Hall as [|x1 xs1 [y Hy] _ IH]; simpl.
  - by rewrite Hx.
  - by rewrite Hy, IH.
Qed.

Lemma statementPart_object_Ok d :
  (exists s, statementPart ModeObject d = Ok s) <-> operator d = OpEquals.
Proof.
  unfold statementPart. simpl. destruct (operator d); split; try done.
  - by eexists.
  - by intros [s ?].
Qed.

(** C5: rendering in object mode succeeds exactly when every accumulated
    operator is [equals]; a tuple with operator [in] makes it throw the
    constraint error, as for the predicate built from a.p1 in [1,2,3]; text
    mode never throws and renders such a tuple with [IN]. *)
Theorem getStatement_modes :
  (forall w,
     (exists s, getStatement w ModeObject = Ok s)
     <-> Forall (fun d => operator d = OpEquals) (identifierPropertyData w))
  /\ (forall w ds1 d ds2,
        identifierPropertyData w = ds1 ++ d :: ds2 ->
        Forall (fun d => operator d = OpEquals) ds1 ->
        operator d = OpIn ->
        getStatement w ModeObject
        = Throw (mkError objectModeMessage
                   (ActualModeOperator ModeObject OpIn)))
  /\ (forall w,
        getStatement w ModeText
        = Ok (join " AND " (List.map textPart (identifierPropertyData w))))
  /\ (forall bindParam,
        let w := (newWhere [("a", [("p1", exampleIn)])] bindParam).2 in
        getStatement w ModeObject
        = Throw (mkError objectModeMessage
                   (ActualModeOperator ModeObject OpIn))
        /\ getStatement w ModeText
           = Ok ("a.p1 IN $" +:+ getUniqueName (acquire bindParam) "p1")).
Proof.
  split; [|split; [|split]].
  - intros w. unfold getStatement.
    rewrite <- (Forall_iff _ _ _ statementPart_object_Ok).
    rewrite <- mapR_Ok_iff.
    destruct (mapR _ _) as [parts|e]; split; intros [s Hs];
      try done; eexists; reflexivity.
  - intros w ds1 d ds2 Hw Hds1 Hd. unfold getStatement. rewrite Hw.
    rewrite (mapR_Throw _ ds1 ds2 d
               (mkError objectModeMessage
                  (ActualModeOperator ModeObject OpIn))); [done| |].
    + eapply Forall_impl; [exact Hds1|].
      intros x Hx. by apply statementPart_object_Ok.
    + unfold statementPart. simpl. by rewrite Hd.
  - intros w. unfold getStatement.
    rewrite (mapR_total _ textPart); [done|].
    intros d. unfold statementPart, textPart. simpl. by destruct (operator d).
  - intros bindParam. simpl. split; reflexivity.
Qed.

(** ** Where: construction and addParams *)

(** C7: the predicate built from a.p1 = "x", a.p2 = 5 renders in text mode
    as [a.p1 = $n1 AND a.p2 = $n2], p1 before p2, and the table maps n1 to
    "x" and n2 to 5, whatever the table held before. *)
Theorem where_text_example (bindParam : option BindParam) :
  exists name1 name2,
    let '(bp, w) := newWhere exampleParams bindParam in
    getStatement w ModeText
    = Ok ("a.p1 = $" +:+ name1 +:+ " AND a.p2 = $" +:+ name2)
    /\ List.map ipd_property (identifierPropertyData w) = ["p1"; "p2"]
    /\ bp !! name1 = Some (VString "x")
    /\ bp !! name2 = Some (VNumber 5)
    /\ name1 <> name2.
Proof.
  set (bp0 := acquire bindParam).
  set (n1 := getUniqueName bp0 "p1").
  set (n2 := getUniqueName (<[n1 := VString "x"]> bp0) "p2").
  exists n1, n2. simpl. fold bp0. fold n1. fold n2.
  assert (n1 <> n2) as Hne.
  { intros Heq.
    pose proof (getUniqueName_free (<[n1 := VString "x"]> bp0) "p2") as Hf.
    fold n2 in Hf. rewrite <- Heq, lookup_insert_eq in Hf. done. }
  repeat split; try done.
  - rewrite lookup_insert_ne by done. apply lookup_insert_eq.
  - apply lookup_insert_eq.
Qed.

(** C3, what the code does: after [addParams] with a.p1 = "y" the merged
    parameters hold p1 only, and the rendered statement has three
    fragments, two of them for a.p1; the first one is still bound to "x". *)
Theorem addParams_keeps_earlier_fragments (bindParam : option BindParam) :
  exists name1 name2 name3,
    let '(bp1, w1) := newWhere exampleParams bindParam in
    let '(bp2, w2) := addParams w1 [("a", [("p1", VString "y")])] bp1 in
    dict_assign_all (rawParams w2) = [("a", [("p1", VString "y")])]
    /\ getStatement w2 ModeText
       = Ok ("a.p1 = $" +:+ name1 +:+ " AND a.p2 = $" +:+ name2
             +:+ " AND a.p1 = $" +:+ name3)
    /\ bp2 !! name1 = Some (VString "x")
    /\ bp2 !! name2 = Some (VNumber 5)
    /\ bp2 !! name3 = Some (VString "y")
    /\ name1 <> name3.
Proof.
  set (bp0 := acquire bindParam).
  set (n1 := getUniqueName bp0 "p1").
  set (bp1 := <[n1 := VString "x"]> bp0).
  set (n2 := getUniqueName bp1 "p2").
  set (bp2 := <[n2 := VNumber 5]> bp1).
  set (n3 := getUniqueName bp2 "p1").
  exists n1, n2, n3. simpl.
  fold bp0. fold n1. fold bp1. fold n2. fold bp2. fold n3.
  pose proof (getUniqueName_free bp1 "p2") as Hf2. fold n2 in Hf2.
  pose proof (getUniqueName_free bp2 "p1") as Hf3. fold n3 in Hf3.
  assert (n1 <> n2) as Hne12.
  { intros Heq. unfold bp1 in Hf2. by rewrite <- Heq, lookup_insert_eq in Hf2. }
  assert (n2 <> n3) as Hne23.
  { intros Heq. unfold bp2 in Hf3. by rewrite <- Heq, lookup_insert_eq in Hf3. }
  assert (n1 <> n3) as Hne13.
  { intros Heq. unfold bp2, bp1 in Hf3.
    rewrite <- Heq, lookup_insert_ne, lookup_insert_eq in Hf3; done. }
  repeat split; try done.
  - unfold bp2, bp1. rewrite !lookup_insert_ne by done.
    apply lookup_insert_eq.
  - unfold bp2. rewrite lookup_insert_ne by done. apply lookup_insert_eq.
  - apply lookup_insert_eq.
Qed.

Lemma setBindParamName_skipped nodeIdentifier st property v :
  isSkipped v = true ->
  setBindParamName nodeIdentifier st (property, v) = st.
Proof.
  unfold isSkipped, setBindParamName. intros Hs.
  apply andb_true_iff in Hs as [Hs1 Hs2].
  apply negb_true_iff in Hs1, Hs2. destruct st. by rewrite Hs1, Hs2.
Qed.

Lemma setBindParamName_filter nodeIdentifier ps st :
  fold_left (setBindParamName nodeIdentifier)
    (List.filter (fun pv => negb (isSkipped pv.2)) ps) st
  = fold_left (setBindParamName nodeIdentifier) ps st.
Proof.
  revert st. induction ps as [|[property v] ps IH]; intros st; simpl; [done|].
  destruct (isSkipped v) eqn:Hs; simpl.
  - by rewrite setBindParamName_skipped.
  - apply IH.
Qed.

(** C2, as the code has it: a value that is neither supported nor an
    [Op.in] wrapper leaves the table and the accumulated tuples as they
    are, and the loops of [setBindParamNames] give the result they give on
    the parameters without such attributes; no error is raised. *)
Theorem unsupported_value_skipped :
  (forall nodeIdentifier st property v,
     isNeo4jSupportedTypes v = false -> isWhereIn v = false ->
     setBindParamName nodeIdentifier st (property, v) = st)
  /\ (forall params st,
        setBindParamNamesLoop params st
        = setBindParamNamesLoop (withoutSkipped params) st).
Proof.
  split.
  - intros nodeIdentifier st property v H1 H2.
    apply setBindParamName_skipped. unfold isSkipped. by rewrite H1, H2.
  - intros params. unfold setBindParamNamesLoop, withoutSkipped.
    induction params as [|[i ps] params IH]; intros st; simpl; [done|].
    by rewrite setBindParamName_filter, IH.
Qed.

(** ** Strings *)

Lemma append_cons (x : ascii) (a b : string) :
  String x a +:+ b = String x (a +:+ b).
Proof. reflexivity. Qed.

Lemma append_assoc (a b c : string) : (a +:+ b) +:+ c = a +:+ (b +:+ c).
Proof.
  induction a as [|x a IH]; [done|]. rewrite !append_cons. by rewrite IH.
Qed.

Lemma append_nil_r (a : string) : a +:+ "" = a.
Proof.
  induction a as [|x a IH]; [done|]. rewrite append_cons. by rewrite IH.
Qed.

Lemma replaceWhitespaceFrom_normalized b s :
  normalizedFrom b (replaceWhitespaceFrom b s) = true.
Proof.
  revert b. induction s as [|c s IH]; intros b; simpl; [done|].
  destruct (isWhitespace c) eqn:Hc.
  - destruct b; simpl; [apply IH|]. apply IH.
  - simpl. rewrite Hc. apply IH.
Qed.








(** ** Final assembly *)

Lemma mapM_rendered {render : ParameterI -> M (option string)} ps bp bp' parts :
  mapM render ps bp = (bp', Ok parts) <-> renderedInOrder render bp ps parts bp'.
Proof.
  revert bp parts. induction ps as [|p ps IH]; intros bp parts; simpl.
  - monad_unfold. split.
    + intros [= <- <-]. constructor.
    + inversion 1; subst. done.
  - monad_unfold. split.
    + destruct (render p bp) as [bp1 [part|e]] eqn:Hp; [|done].
      destruct (mapM render ps bp1) as [bp2 [parts'|e]] eqn:Hps; [|done].
      intros [= <- <-]. econstructor; [exact Hp|]. by apply IH.
    + inversion 1 as [|? ? ? bp1 part parts' ? Hp Hps]; subst.
      rewrite Hp. apply IH in Hps. by rewrite Hps.
Qed.


(** ** Match *)

Lemma getMatchString_not_optional o bp bp' s :
  m_optional o = false ->
  getMatchString (MatchObj o) bp = (bp', Ok s) ->
  exists rest, s = " MATCH " +:+ rest.
Proof.
  intros Hopt. unfold getMatchString. rewrite Hopt.
  destruct (m_multiple o) as [multiple|];
    [|destruct (m_related o) as [related|];
      [|destruct (m_literal o) as [literal|]]]; monad_unfold.
  - destruct (mapM getNodeString multiple bp) as [bp1 [nodes|e]]; [|done].
    intros [= <- <-]. by eexists.
  - destruct (getRelatedParts 0 related bp) as [bp1 [parts|e]]; [|done].
    intros [= <- <-]. by eexists.
  - destruct (getNodeString literal bp) as [bp1 [node|e]]; [|done].
    intros [= <- <-]. by eexists.
  - destruct (getNodeString (ElObject (m_node o)) bp) as [bp1 [node|e]];
      [|done].
    intros [= <- <-]. by eexists.
Qed.

(** C10: a Match clause given as an object (multiple, related, literal or
    a node) whose optional flag is absent or false renders a fragment that
    begins with a space, and a statement whose first clause is such a match
    begins with that space: normalization does not trim. *)
Theorem match_leading_space o :
  m_optional o = false ->
  (forall bp bp' s,
     getMatchString (MatchObj o) bp = (bp', Ok s) ->
     exists rest, s = " MATCH " +:+ rest)
  /\ (forall ps bp bp' stmt,
        setStatementByParameters (Match (MatchObj o) :: ps) bp
        = (bp', Ok stmt) ->
        exists rest, stmt = " MATCH " +:+ rest).
Proof.
  intros Hopt. split.
  - intros bp bp' s. by apply getMatchString_not_optional.
  - intros ps bp bp' stmt. unfold setStatementByParameters.
    cbn [mapM getStatementPart]. monad_unfold.
    destruct (getMatchString (MatchObj o) bp) as [bp1 [s|e]] eqn:Hm; [|done].
    apply getMatchString_not_optional in Hm as [rest ->]; [|done].
    destruct (mapM getStatementPart ps bp1) as [bp2 [parts|e]]; [|done].
    intros [= <- <-]. unfold joinParts, join. simpl.
    destruct (List.map (default "") parts) as [|q qs].
    + eexists. unfold replaceWhitespace. rewrite !append_cons. simpl.
      reflexivity.
    + eexists. unfold replaceWhitespace. rewrite !append_cons. simpl.
      reflexivity.
Qed.

(** ** Related patterns *)

Lemma join_empty parts : join "" parts = concatenate parts.
Proof.
  unfold join, concatenate. induction parts as [|p parts IH]; [done|].
  destruct parts as [|q parts].
  - simpl. by rewrite append_nil_r.
  - change (String.concat "" (p :: q :: parts))
      with (p +:+ "" +:+ String.concat "" (q :: parts)).
    rewrite IH. reflexivity.
Qed.

Lemma getRelatedParts_throw index pre bad post bp bp1 parts :
  Nat.odd (index + List.length pre) = true ->
  isRelationship bad = false ->
  getRelatedParts index pre bp = (bp1, Ok parts) ->
  getRelatedParts index (pre ++ bad :: post) bp
  = (bp1, Throw (mkError relatedMessage NoData)).
Proof.
  revert index bp parts.
  induction pre as [|element pre IH]; intros index bp parts Hodd Hbad.
  - simpl in *. rewrite Nat.add_0_r in Hodd. monad_unfold.
    intros [= <- <-]. by rewrite Hodd, Hbad.
  - cbn [getRelatedParts app]. monad_unfold.
    destruct (if Nat.odd index then _ else _) as [bp2 [part|e]]; [|done].
    destruct (getRelatedParts (S index) pre bp2) as [bp3 [parts'|e]] eqn:Hpre;
      [|done].
    intros [= <- <-].
    rewrite (IH (S index) bp2 parts'); [done| |done|done].
    simpl in Hodd. by rewrite <- Nat.add_succ_comm in Hodd.
Qed.

Lemma getRelatedParts_no_statement index related bp :
  oddAreRelationships index related = false ->
  exists bp' e, getRelatedParts index related bp = (bp', Throw e).
Proof.
  revert index bp. induction related as [|element rest IH]; intros index bp;
    [done|].
  cbn [oddAreRelationships getRelatedParts]. monad_unfold. intros Hodd.
  apply andb_false_iff in Hodd as [Hodd|Hodd].
  - destruct (Nat.odd index); [|done]. rewrite Hodd. by eexists _, _.
  - destruct (if Nat.odd index then _ else _) as [bp2 [part|e]];
      [|by eexists _, _].
    destruct (IH (S index) bp2 Hodd) as (bp' & e & ->). by eexists _, _.
Qed.

Lemma getRelatedParts_render index related :
  oddAreRelationships index related = true ->
  getRelatedParts index related = renderElements index related.
Proof.
  revert index. induction related as [|element rest IH]; intros index;
    [done|].
  cbn [oddAreRelationships getRelatedParts renderElements]. intros Hodd.
  apply andb_true_iff in Hodd as [Hodd Hrest].
  rewrite (IH _ Hrest). destruct (Nat.odd index); [|done]. by rewrite Hodd.
Qed.

(** C4, as the code has it.  In a related pattern of a Match, Create or
    Merge clause: when an odd-indexed element fails the relationship-shape
    check and the elements before it rendered without error, the error
    [even argument of related is not a relationship] is thrown at that
    element; whenever some odd-indexed element fails the check no statement
    is returned; when every odd-indexed element passes and every element
    renders, the node and relationship fragments are concatenated in order
    with no separator. *)
Theorem related_pattern :
  (forall o pre bad post bp bp1 parts,
     m_multiple o = None -> m_related o = Some (pre ++ bad :: post) ->
     Nat.odd (List.length pre) = true -> isRelationship bad = false ->
     getRelatedParts 0 pre bp = (bp1, Ok parts) ->
     getMatchString (MatchObj o) bp
     = (bp1, Throw (mkError relatedMessage NoData)))
  /\ (forall o mode pre bad post bp bp1 parts,
        c_multiple o = None -> c_related o = Some (pre ++ bad :: post) ->
        Nat.odd (List.length pre) = true -> isRelationship bad = false ->
        getRelatedParts 0 pre bp = (bp1, Ok parts) ->
        getCreateOrMergeString (CreateObj o) mode bp
        = (bp1, Throw (mkError relatedMessage NoData)))
  /\ (forall o related bp,
        m_multiple o = None -> m_related o = Some related ->
        oddAreRelationships 0 related = false ->
        exists bp' e, getMatchString (MatchObj o) bp = (bp', Throw e))
  /\ (forall o mode related bp,
        c_multiple o = None -> c_related o = Some related ->
        oddAreRelationships 0 related = false ->
        exists bp' e,
          getCreateOrMergeString (CreateObj o) mode bp = (bp', Throw e))
  /\ (forall o related bp bp' parts,
        m_multiple o = None -> m_related o = Some related ->
        oddAreRelationships 0 related = true ->
        renderElements 0 related bp = (bp', Ok parts) ->
        getMatchString (MatchObj o) bp
        = (bp', Ok (optionalWord (m_optional o) +:+ " MATCH "
                    +:+ concatenate parts)))
  /\ (forall o mode related bp bp' parts,
        c_multiple o = None -> c_related o = Some related ->
        oddAreRelationships 0 related = true ->
        renderElements 0 related bp = (bp', Ok parts) ->
        getCreateOrMergeString (CreateObj o) mode bp
        = (bp', Ok (createWord mode +:+ " " +:+ concatenate parts))).
Proof.
  repeat apply conj.
  - intros o pre bad post bp bp1 parts Hm Hr Hodd Hbad Hpre.
    unfold getMatchString. rewrite Hm, Hr. monad_unfold.
    by rewrite (getRelatedParts_throw 0 pre bad post bp bp1 parts).
  - intros o mode pre bad post bp bp1 parts Hm Hr Hodd Hbad Hpre.
    unfold getCreateOrMergeString. rewrite Hm, Hr. monad_unfold.
    by rewrite (getRelatedParts_throw 0 pre bad post bp bp1 parts).
  - intros o related bp Hm Hr Hodd.
    unfold getMatchString. rewrite Hm, Hr. monad_unfold.
    destruct (getRelatedParts_no_statement 0 related bp Hodd)
      as (bp' & e & ->).
    by eexists _, _.
  - intros o mode related bp Hm Hr Hodd.
    unfold getCreateOrMergeString. rewrite Hm, Hr. monad_unfold.
    destruct (getRelatedParts_no_statement 0 related bp Hodd)
      as (bp' & e & ->).
    by eexists _, _.
  - intros o related bp bp' parts Hm Hr Hodd Hparts.
    unfold getMatchString. rewrite Hm, Hr. monad_unfold.
    rewrite (getRelatedParts_render 0 related Hodd), Hparts.
    rewrite join_empty. reflexivity.
  - intros o mode related bp bp' parts Hm Hr Hodd Hparts.
    unfold getCreateOrMergeString. rewrite Hm, Hr. monad_unfold.
    rewrite (getRelatedParts_render 0 related Hodd), Hparts.
    rewrite join_empty. by destruct mode.
Qed.

(** ** Placeholders *)

Lemma isWhitespace_not_ident c :
  isWhitespace c = true -> isIdentChar c = false /\ isDollar c = false.
Proof. destruct c as [[] [] [] [] [] [] [] []]; vm_compute; done. Qed.

Lemma isIdentChar_not_dollar c : isIdentChar c = true -> isDollar c = false.
Proof. destruct c as [[] [] [] [] [] [] [] []]; vm_compute; done. Qed.

Lemma allIdent_dollarFree s : allIdent s = true -> dollarFree s = true.
Proof.
  unfold allIdent, dollarFree. induction s as [|c s IH]; simpl; [done|].
  intros H. apply andb_true_iff in H as [Hc Hs].
  by rewrite (isIdentChar_not_dollar c Hc), IH.
Qed.

Lemma allIdent_app s t :
  allIdent s = true -> allIdent t = true -> allIdent (s +:+ t) = true.
Proof.
  unfold allIdent. induction s as [|c s IH]; [done|].
  rewrite append_cons. simpl. intros H Ht.
  apply andb_true_iff in H as [Hc Hs]. by rewrite Hc, IH.
Qed.

Lemma dollarFree_app s t :
  dollarFree (s +:+ t) = dollarFree s && dollarFree t.
Proof.
  unfold dollarFree. induction s as [|c s IH]; [done|].
  rewrite append_cons. simpl. by rewrite IH, andb_assoc.
Qed.

Lemma takeIdent_app name t :
  allIdent name = true -> startsNonIdent t = true ->
  takeIdent (name +:+ t) = name.
Proof.
  unfold allIdent. induction name as [|c name IH]; intros Hn Ht.
  - destruct t as [|c t]; [done|]. simpl in *.
    by apply negb_true_iff in Ht as ->.
  - rewrite append_cons. simpl in *.
    apply andb_true_iff in Hn as [Hc Hn]. by rewrite Hc, IH.
Qed.

Lemma placeholders_dollarFree s t :
  dollarFree s = true -> placeholders (s +:+ t) = placeholders t.
Proof.
  unfold dollarFree. induction s as [|c s IH]; [done|].
  rewrite append_cons. simpl. intros H.
  apply andb_true_iff in H as [Hc Hs]. apply negb_true_iff in Hc.
  by rewrite Hc, IH.
Qed.

Lemma takeIdent_replaceWhitespace s :
  takeIdent (replaceWhitespaceFrom false s) = takeIdent s.
Proof.
  induction s as [|c s IH]; [done|]. simpl.
  destruct (isWhitespace c) eqn:Hc.
  - apply isWhitespace_not_ident in Hc as [Hc _]. by rewrite Hc.
  - simpl. by rewrite IH.
Qed.

Lemma placeholders_replaceWhitespaceFrom b s :
  placeholders (replaceWhitespaceFrom b s) = placeholders s.
Proof.
  revert b. induction s as [|c s IH]; intros b; [done|]. simpl.
  destruct (isWhitespace c) eqn:Hc.
  - apply isWhitespace_not_ident in Hc as [_ Hc]. rewrite Hc.
    destruct b; simpl; apply IH.
  - simpl. rewrite IH, takeIdent_replaceWhitespace. done.
Qed.

Lemma tok_tokW s names : tok s names -> tokW s names.
Proof. intros H t _. apply H. Qed.

Lemma tok_dollarFree s : dollarFree s = true -> tok s [].
Proof. intros H t. by apply placeholders_dollarFree. Qed.

Lemma tok_app s1 s2 n1 n2 :
  tok s1 n1 -> tok s2 n2 -> tok (s1 +:+ s2) (n1 ++ n2).
Proof.
  intros H1 H2 t. by rewrite append_assoc, H1, H2, (assoc_L (++)).
Qed.

Lemma tokW_app s1 s2 n1 n2 :
  tok s1 n1 -> tokW s2 n2 -> tokW (s1 +:+ s2) (n1 ++ n2).
Proof.
  intros H1 H2 t Ht. by rewrite append_assoc, H1, H2, (assoc_L (++)).
Qed.

Lemma startsNonIdent_app s t :
  s <> "" -> startsNonIdent s = true -> startsNonIdent (s +:+ t) = true.
Proof. by destruct s. Qed.

Lemma tokW_tok_app s1 s2 n1 n2 :
  tokW s1 n1 -> tok s2 n2 -> s2 <> "" -> startsNonIdent s2 = true ->
  tok (s1 +:+ s2) (n1 ++ n2).
Proof.
  intros H1 H2 Hne Hs2 t.
  rewrite append_assoc, H1, H2, (assoc_L (++)); [done|].
  by apply startsNonIdent_app.
Qed.

Lemma tokW_placeholder name : allIdent name = true -> tokW ("$" +:+ name) [name].
Proof.
  intros Hn t Ht. rewrite append_cons. simpl.
  rewrite takeIdent_app by done.
  rewrite placeholders_dollarFree by by apply allIdent_dollarFree.
  done.
Qed.

Lemma tokW_placeholders s names : tokW s names -> placeholders s = names.
Proof.
  intros H. specialize (H "" eq_refl).
  by rewrite append_nil_r, app_nil_r in H.
Qed.

Lemma tokW_tokW_app s1 s2 n1 n2 :
  tokW s1 n1 -> tokW s2 n2 -> s2 <> "" -> startsNonIdent s2 = true ->
  tokW (s1 +:+ s2) (n1 ++ n2).
Proof.
  intros H1 H2 Hne Hs2 t Ht.
  rewrite append_assoc, H1, H2, (assoc_L (++)); [done|done|].
  by apply startsNonIdent_app.
Qed.

Lemma tok_nil : tok "" [].
Proof. by intros t. Qed.

Lemma tok_join sep parts namess :
  tok sep [] -> Forall2 tok parts namess ->
  tok (join sep parts) (List.concat namess).
Proof.
  intros Hsep. unfold join.
  induction 1 as [|p names parts namess Hp Hparts IH]; [apply tok_nil|].
  destruct Hparts as [|q names' parts namess Hq Hparts].
  - simpl. by rewrite app_nil_r.
  - change (String.concat sep (p :: q :: parts))
      with (p +:+ sep +:+ String.concat sep (q :: parts)).
    change (List.concat (names :: names' :: namess))
      with (names ++ [] ++ List.concat (names' :: namess)).
    apply tok_app; [done|]. by apply tok_app.
Qed.

Lemma tokW_join sep parts namess :
  tok sep [] -> sep <> "" -> startsNonIdent sep = true ->
  Forall2 tokW parts namess ->
  tokW (join sep parts) (List.concat namess).
Proof.
  intros Hsep Hne Hstart. unfold join.
  induction 1 as [|p names parts namess Hp Hparts IH];
    [apply tok_tokW, tok_nil|].
  destruct Hparts as [|q names' parts namess Hq Hparts].
  - simpl. by rewrite app_nil_r.
  - change (String.concat sep (p :: q :: parts))
      with (p +:+ sep +:+ String.concat sep (q :: parts)).
    change (List.concat (names :: names' :: namess))
      with (names ++ [] ++ List.concat (names' :: namess)).
    apply tokW_tokW_app; [done| | |].
    + by apply tokW_app.
    + by destruct sep.
    + by apply startsNonIdent_app.
Qed.

(** ** Fresh names *)

Lemma freshNames_nil bp : freshNames bp [] bp.
Proof. split; [done|]. split; constructor. Qed.

Lemma freshNames_app bp n1 bp1 n2 bp2 :
  freshNames bp n1 bp1 -> freshNames bp1 n2 bp2 ->
  freshNames bp (n1 ++ n2) bp2.
Proof.
  intros (Hsub1 & Hnd1 & Hall1) (Hsub2 & Hnd2 & Hall2).
  split; [by etrans|]. split.
  - apply NoDup_app. split; [done|]. split; [|done].
    intros n Hn1 Hn2.
    rewrite Forall_forall in Hall1, Hall2.
    destruct (Hall1 n Hn1) as [_ [v Hv]].
    destruct (Hall2 n Hn2) as [Hnone _].
    congruence.
  - apply Forall_app. split.
    + eapply Forall_impl; [exact Hall1|]. intros n [Hnone [v Hv]].
      split; [done|]. exists v. by eapply lookup_weaken.
    + eapply Forall_impl; [exact Hall2|]. intros n [Hnone Hsome].
      split; [|done].
      destruct (bp !! n) as [v|] eqn:Hbp; [|done].
      eapply lookup_weaken in Hbp; [|exact Hsub1]. congruence.
Qed.

Lemma freshNames_add baseName v bp bp' name :
  getUniqueNameAndAdd baseName v bp = (bp', name) ->
  freshNames bp [name] bp'.
Proof.
  intros Hadd. apply getUniqueNameAndAdd_spec in Hadd as [Hnone ->].
  split; [by apply insert_subseteq|]. split; [apply NoDup_singleton|].
  constructor; [|constructor]. split; [done|].
  rewrite lookup_insert_eq. by eexists.
Qed.

Lemma isIdentChar_pretty_N_char x : isIdentChar (pretty_N_char x) = true.
Proof. unfold pretty_N_char. by repeat case_match. Qed.

Lemma allIdent_pretty_N_go x s :
  allIdent s = true -> allIdent (pretty_N_go x s) = true.
Proof.
  revert s. induction (N.lt_wf_0 x) as [x _ IH]; intros s Hs.
  assert (x = 0 \/ 0 < x)%N as [->|Hx] by lia.
  - by rewrite pretty_N_go_0.
  - rewrite pretty_N_go_step by done. apply IH.
    + by apply N.div_lt.
    + unfold allIdent in *. simpl. by rewrite isIdentChar_pretty_N_char.
Qed.

Lemma allIdent_pretty_nat (k : nat) : allIdent (pretty k) = true.
Proof.
  unfold pretty, pretty_nat, pretty, pretty_N.
  case_decide; [done|]. by apply allIdent_pretty_N_go.
Qed.

Section Sanitized.

(** The spec's reading of [sanitize]: the result is a valid placeholder
    identifier. *)
Hypothesis sanitize_ident : forall s, allIdent (sanitize s) = true.

Lemma allIdent_getUniqueName bp baseName :
  allIdent (getUniqueName bp baseName) = true.
Proof.
  unfold getUniqueName. destruct (isFree bp _); [done|].
  destruct (find _ _); [|done].
  apply allIdent_app; [done | apply allIdent_pretty_nat].
Qed.

Lemma yields_ret {A} (P : A -> list string -> Prop) bp a :
  P a [] -> yields P bp (ret a bp).
Proof. intros HP. exists []. split; [done | apply freshNames_nil]. Qed.

Lemma yields_impl {A} (P Q : A -> list string -> Prop) bp r :
  (forall a names, P a names -> Q a names) -> yields P bp r -> yields Q bp r.
Proof.
  intros HPQ. destruct r as [bp' [a|e]]; [|done].
  intros (names & HP & Hf). exists names. auto.
Qed.

Lemma yields_bind {A B} (P : A -> list string -> Prop)
    (Q : A -> B -> list string -> Prop) (m : M A) (k : A -> M B) bp0 bp :
  yields P bp0 (m bp) ->
  (forall a bp1, yields (Q a) bp1 (k a bp1)) ->
  yields (fun b names =>
            exists a n1 n2, names = n1 ++ n2 /\ P a n1 /\ Q a b n2)
         bp0 (bind m k bp).
Proof.
  unfold bind. intros Hm Hk.
  destruct (m bp) as [bp1 [a|e]]; [|done].
  destruct Hm as (n1 & HP & Hf1).
  specialize (Hk a bp1). destruct (k a bp1) as [bp2 [b|e]]; [|done].
  destruct Hk as (n2 & HQ & Hf2).
  exists (n1 ++ n2). split; [by exists a, n1, n2|].
  by eapply freshNames_app.
Qed.

Lemma yields_mapM {A B} (P : B -> list string -> Prop)
    (f : A -> M B) xs :
  (forall x, In x xs -> forall bp, yields P bp (f x bp)) ->
  forall bp, yields (eachWith P) bp (mapM f xs bp).
Proof.
  induction xs as [|x xs IH]; intros Hf bp.
  - apply yields_ret. by exists [].
  - cbn [mapM]. unfold bind, ret.
    pose proof (Hf x (or_introl eq_refl) bp) as Hx.
    destruct (f x bp) as [bp1 [y|e]]; [|done].
    destruct Hx as (n1 & HP & Hf1).
    specialize (IH (fun x' Hin => Hf x' (or_intror Hin)) bp1).
    destruct (mapM f xs bp1) as [bp2 [ys|e]]; [|done].
    destruct IH as (n2 & (namess & HF & ->) & Hf2).
    exists (n1 ++ List.concat namess). split.
    + exists (n1 :: namess). split; [by constructor | done].
    + by eapply freshNames_app.
Qed.

Lemma concat_singletons (names : list string) :
  List.concat ((fun n => [n]) <$> names) = names.
Proof. induction names as [|n names IH]; csimpl; [done | by rewrite IH]. Qed.

Lemma tokW_prefixed pre name :
  dollarFree pre = true -> allIdent name = true ->
  tokW (pre +:+ "$" +:+ name) [name].
Proof.
  intros Hpre Hname.
  apply (tokW_app pre ("$" +:+ name) [] [name]);
    [by apply tok_dollarFree | by apply tokW_placeholder].
Qed.

(** A fragment wrapped between a text without placeholders and a closing
    text that does not continue a name. *)
Lemma tok_wrap pre s post names :
  dollarFree pre = true -> dollarFree post = true ->
  post <> "" -> startsNonIdent post = true ->
  tokW s names -> tok (pre +:+ s +:+ post) names.
Proof.
  intros Hpre Hpost Hne Hstart Hs.
  apply (tok_app pre (s +:+ post) [] names); [by apply tok_dollarFree|].
  rewrite <- (app_nil_r names).
  apply tokW_tok_app; [done | by apply tok_dollarFree | done | done].
Qed.

Lemma yields_register pre baseName v bp :
  dollarFree pre = true ->
  yields tokW bp
    (let '(bp', name) := getUniqueNameAndAdd baseName v bp in
     (bp', Ok (pre +:+ "$" +:+ name))).
Proof.
  intros Hpre.
  destruct (getUniqueNameAndAdd baseName v bp) as [bp' name] eqn:Hadd.
  exists [name]. split; [|by eapply freshNames_add].
  apply tokW_prefixed; [done|].
  unfold getUniqueNameAndAdd in Hadd. injection Hadd as <- <-.
  apply allIdent_getUniqueName.
Qed.

Lemma getPropertiesWithParams_yields properties bp :
  dollarFreeAll (List.map fst properties) ->
  yields tok bp (getPropertiesWithParams properties bp).
Proof.
  intros Hkeys. unfold getPropertiesWithParams.
  eapply yields_impl;
    [|apply (yields_bind (eachWith tokW)
               (fun parts s names =>
                  names = [] /\ s = "{ " +:+ join ", " parts +:+ " }"));
      [apply yields_mapM | intros parts bp1; by apply yields_ret]].
  - intros s names (parts & n1 & n2 & -> & (namess & Hparts & ->) & -> & ->).
    rewrite app_nil_r. apply tok_wrap; try done.
    by apply tokW_join.
  - intros [k v] Hin bp1. cbn [fst snd].
    assert (dollarFree k = true) as Hk.
    { rewrite Forall_forall in Hkeys. apply Hkeys.
      apply list_elem_of_In, in_map_iff. by exists (k, v). }
    pose proof (yields_register (k +:+ ": ") k v bp1) as Hy.
    rewrite dollarFree_app, Hk in Hy. specialize (Hy eq_refl).
    destruct (getUniqueNameAndAdd k v bp1) as [bp2 name].
    by rewrite append_assoc in Hy.
Qed.

Lemma getSetPartsStatement_yields data identifier bp :
  dollarFree identifier = true ->
  dollarFreeAll (List.map fst data) ->
  yields tokW bp (getSetPartsStatement data identifier bp).
Proof.
  intros Hid Hkeys. unfold getSetPartsStatement.
  eapply yields_impl;
    [|apply (yields_bind (eachWith tokW)
               (fun parts s names =>
                  names = [] /\ s = "SET " +:+ join ", " parts));
      [apply yields_mapM | intros parts bp1; by apply yields_ret]].
  - intros s names (parts & n1 & n2 & -> & (namess & Hparts & ->) & -> & ->).
    rewrite app_nil_r.
    apply (tokW_app "SET " _ [] _); [by apply tok_dollarFree|].
    by apply tokW_join.
  - intros [k v] Hin bp1. cbn [fst snd].
    assert (dollarFree k = true) as Hk.
    { rewrite Forall_forall in Hkeys. apply Hkeys.
      apply list_elem_of_In, in_map_iff. by exists (k, v). }
    pose proof (yields_register (identifier +:+ "." +:+ k +:+ " = ")
                  k v bp1) as Hy.
    rewrite !dollarFree_app, Hid, Hk in Hy. specialize (Hy eq_refl).
    destruct (getUniqueNameAndAdd k v bp1) as [bp2 name].
    by rewrite !append_assoc in Hy.
Qed.

Lemma setBindParamName_fresh nodeIdentifier bp ipd property v bp' ipd' :
  dollarFree property = true ->
  setBindParamName nodeIdentifier (bp, ipd) (property, v) = (bp', ipd') ->
  exists new names,
    ipd' = ipd ++ new /\ Forall2 ipdNamed new names
    /\ freshNames bp names bp'.
Proof.
  intros Hp. unfold setBindParamName, getNameAndAddToParams.
  destruct (isNeo4jSupportedTypes v);
    [|destruct (isWhereIn v);
      [|intros [= <- <-]; exists [], [];
        rewrite app_nil_r; split; [done|];
        split; [constructor | apply freshNames_nil]]].
  - destruct (getUniqueNameAndAdd property v bp) as [bp1 name] eqn:Hadd.
    intros [= <- <-]. eexists [_], [name]. split; [done|]. split.
    + repeat constructor; simpl; [|done].
      unfold getUniqueNameAndAdd in Hadd. injection Hadd as <- <-.
      apply allIdent_getUniqueName.
    + by eapply freshNames_add.
  - destruct (getUniqueNameAndAdd property (getOpIn v) bp)
      as [bp1 name] eqn:Hadd.
    intros [= <- <-]. eexists [_], [name]. split; [done|]. split.
    + repeat constructor; simpl; [|done].
      unfold getUniqueNameAndAdd in Hadd. injection Hadd as <- <-.
      apply allIdent_getUniqueName.
    + by eapply freshNames_add.
Qed.

Lemma setBindParamNames_fresh nodeIdentifier ps bp ipd bp' ipd' :
  dollarFreeAll (List.map fst ps) ->
  fold_left (setBindParamName nodeIdentifier) ps (bp, ipd) = (bp', ipd') ->
  exists new names,
    ipd' = ipd ++ new /\ Forall2 ipdNamed new names
    /\ freshNames bp names bp'.
Proof.
  revert bp ipd.
  induction ps as [|[property v] ps IH]; intros bp ipd Hkeys;
    cbn [fold_left].
  - intros [= <- <-]. exists [], []. rewrite app_nil_r.
    split; [done|]. split; [constructor | apply freshNames_nil].
  - simpl in Hkeys. apply Forall_cons in Hkeys as [Hp Hkeys].
    destruct (setBindParamName nodeIdentifier (bp, ipd) (property, v))
      as [bp1 ipd1] eqn:Hstep.
    apply setBindParamName_fresh in Hstep
      as (new1 & names1 & -> & Hnew1 & Hf1); [|done].
    intros Hrest.
    apply IH in Hrest as (new2 & names2 & -> & Hnew2 & Hf2); [|done].
    exists (new1 ++ new2), (names1 ++ names2).
    split; [by rewrite (assoc_L (++))|].
    split; [by apply Forall2_app | by eapply freshNames_app].
Qed.

Lemma newWhere_fresh nodeIdentifier w bp bp' wh :
  dollarFreeAll (List.map fst w) ->
  newWhere [(nodeIdentifier, w)] (Some bp) = (bp', wh) ->
  exists names,
    Forall2 ipdNamed (identifierPropertyData wh) names
    /\ freshNames bp names bp'.
Proof.
  intros Hkeys. unfold newWhere, addParams, setBindParamNames.
  cbn [rawParams identifierPropertyData app acquire].
  change (dict_assign_all [[(nodeIdentifier, w)]])
    with [(nodeIdentifier, w)].
  unfold setBindParamNamesLoop. cbn [fold_left fst snd].
  destruct (fold_left (setBindParamName nodeIdentifier) w (bp, []))
    as [bp1 ipd1] eqn:Hloop.
  intros [= <- <-]. simpl.
  apply setBindParamNames_fresh in Hloop
    as (new & names & -> & Hnew & Hf); [|done].
  by exists names.
Qed.

Lemma statementParts_object_tokW ds names parts :
  Forall2 ipdNamed ds names ->
  mapR (statementPart ModeObject) ds = Ok parts ->
  Forall2 tokW parts ((fun n => [n]) <$> names).
Proof.
  intros Hds. revert parts.
  induction Hds as [|d n ds names (Hname & Hn & Hp) Hds IH]; intros parts.
  - intros [= <-]. constructor.
  - cbn [mapR]. unfold statementPart at 1. cbn [operatorForStatement].
    destruct (operator d); [|done].
    destruct (mapR (statementPart ModeObject) ds) as [parts'|e]; [|done].
    intros [= <-]. csimpl. constructor; [|by apply IH].
    rewrite Hname.
    apply (tokW_app (ipd_property d) _ [] [n]); [by apply tok_dollarFree|].
    by apply (tokW_prefixed " : " n).
Qed.

Lemma getStatement_object_tok w names s :
  Forall2 ipdNamed (identifierPropertyData w) names ->
  getStatement w ModeObject = Ok s ->
  tok s names.
Proof.
  intros Hds. unfold getStatement.
  destruct (mapR _ _) as [parts|e] eqn:Hparts; [|done].
  intros [= <-].
  eapply statementParts_object_tokW in Hparts; [|done].
  rewrite <- (concat_singletons names).
  apply tok_wrap; try done. by apply tokW_join.
Qed.

(** The inline part of a graph element, the Where having been built on the
    table [bp]. *)
Lemma inner_yields (identifier : string) (w : option WhereParamsI)
    (ps : option (dict value)) (render : option Inner -> M string) bp :
  dollarFreeAll (dictKeys w) -> dollarFreeAll (dictKeys ps) ->
  (forall inner bp0 bp1,
     yields tok bp0 (getInnerString inner bp1) ->
     yields tok bp0 (render inner bp1)) ->
  yields tok bp
    (match w, ps with
     | Some w, _ =>
         fun bp =>
           let '(bp', inner) := newWhere [(identifier, w)] (Some bp) in
           render (Some (InnerWhere inner)) bp'
     | None, Some ps => render (Some (InnerProperties ps))
     | None, None => render None
     end bp).
Proof.
  intros Hw Hps Hrender. destruct w as [w|]; [|destruct ps as [ps|]].
  - destruct (newWhere [(identifier, w)] (Some bp)) as [bp1 wh] eqn:Hnew.
    apply newWhere_fresh in Hnew as (names & Hds & Hf); [|done].
    apply Hrender. unfold getInnerString, lift, bind, ret.
    destruct (getStatement wh ModeObject) as [s|e] eqn:Hs; [|done].
    exists names. split; [|done].
    apply (tok_app " " s [] names); [by apply tok_dollarFree|].
    by eapply getStatement_object_tok.
  - apply Hrender. unfold getInnerString.
    eapply yields_impl;
      [|apply (yields_bind tok (fun s s' names => names = [] /\ s' = " " +:+ s));
        [by apply getPropertiesWithParams_yields
        |intros s bp1; by apply yields_ret]].
    intros s' names (s & n1 & n2 & -> & Hs & -> & ->).
    rewrite app_nil_r.
    by apply (tok_app " " s [] n1); [apply tok_dollarFree|].
  - apply Hrender. unfold getInnerString. apply yields_ret, tok_nil.
Qed.

Lemma yields_map {A B} (P : A -> list string -> Prop)
    (Q : B -> list string -> Prop) (m : M A) (g : A -> B) bp0 bp :
  yields P bp0 (m bp) ->
  (forall a names, P a names -> Q (g a) names) ->
  yields Q bp0 (bind m (fun x => ret (g x)) bp).
Proof.
  unfold bind, ret. intros Hm HPQ.
  destruct (m bp) as [bp1 [a|e]]; [|done].
  destruct Hm as (names & HP & Hf). exists names. auto.
Qed.

Ltac tok_prefix :=
  repeat (apply (tok_app _ _ [] _); [apply tok_dollarFree; done|]).

Lemma tok_suffix s post names :
  tok s names -> dollarFree post = true -> tok (s +:+ post) names.
Proof.
  intros Hs Hpost. rewrite <- (app_nil_r names).
  apply tok_app; [done | by apply tok_dollarFree].
Qed.

Lemma dollarFree_arrowLeft d : dollarFree (arrowLeft d) = true.
Proof. by destruct d as [[]|]. Qed.

Lemma dollarFree_arrowRight d : dollarFree (arrowRight d) = true.
Proof. by destruct d as [[]|]. Qed.

Lemma dollarFree_label (o : GraphElementObject) :
  dollarFreeAll (optionText (label o)) ->
  dollarFreeAll (optionText (getLabel <$> model o)) ->
  dollarFree (match label o, model o with
              | Some l, _ => l
              | None, Some m => getLabel m
              | None, None => ""
              end) = true.
Proof.
  destruct (label o) as [l|]; [|destruct (model o) as [m|]]; simpl;
    intros Hl Hm.
  - by apply Forall_cons in Hl as [? _].
  - by apply Forall_cons in Hm as [? _].
  - done.
Qed.

Lemma elementTexts_object o :
  dollarFreeAll (elementTexts (ElObject o)) ->
  dollarFree (identifier o) = true
  /\ dollarFreeAll (optionText (label o))
  /\ dollarFreeAll (optionText (getLabel <$> model o))
  /\ dollarFreeAll (dictKeys (where_ o))
  /\ dollarFreeAll (dictKeys (properties o))
  /\ dollarFreeAll (optionText (name o)).
Proof.
  unfold elementTexts. rewrite Forall_cons, !Forall_app. tauto.
Qed.

Lemma getNodeString_yields node bp :
  dollarFreeAll (elementTexts node) ->
  yields tok bp (getNodeString node bp).
Proof.
  destruct node as [s|o]; intros Htexts.
  - apply yields_ret, tok_dollarFree. by apply Forall_cons in Htexts as [? _].
  - apply elementTexts_object in Htexts as (Hid & Hl & Hm & Hw & Hp & Hn).
    pose proof (dollarFree_label o Hl Hm) as Hlabel.
    unfold getNodeString.
    apply (inner_yields (identifier o) (where_ o) (properties o)
             (getNodeStatement (identifier o) _)); [done|done|].
    intros inner bp0 bp1 Hinner. unfold getNodeStatement.
    eapply yields_map; [exact Hinner|].
    intros i names Hi. tok_prefix. by apply tok_suffix.
Qed.

Lemma getRelationshipString_yields relationship bp :
  dollarFreeAll (elementTexts relationship) ->
  yields tok bp (getRelationshipString relationship bp).
Proof.
  destruct relationship as [s|o]; intros Htexts.
  - apply yields_ret, tok_dollarFree. by apply Forall_cons in Htexts as [? _].
  - apply elementTexts_object in Htexts as (Hid & Hl & Hm & Hw & Hp & Hn).
    assert (dollarFree (default "" (name o)) = true) as Hname.
    { destruct (name o); [|done]. by apply Forall_cons in Hn as [? _]. }
    pose proof (dollarFree_arrowLeft (direction o)) as Hleft.
    pose proof (dollarFree_arrowRight (direction o)) as Hright.
    unfold getRelationshipString.
    apply (inner_yields (identifier o) (where_ o) (properties o)
             (getRelationshipStatement (direction o) (identifier o) (name o)));
      [done|done|].
    intros inner bp0 bp1 Hinner. unfold getRelationshipStatement.
    eapply yields_map; [exact Hinner|].
    intros i names Hi. tok_prefix.
    apply tok_suffix; [done|]. by rewrite dollarFree_app, Hright.
Qed.

Lemma getRelatedParts_yields related index bp :
  dollarFreeAll (List.concat (List.map elementTexts related)) ->
  yields (eachWith tok) bp (getRelatedParts index related bp).
Proof.
  revert index bp.
  induction related as [|element rest IH]; intros index bp Htexts.
  - apply yields_ret. by exists [].
  - cbn [List.map List.concat] in Htexts.
    apply Forall_app in Htexts as [Helement Hrest].
    cbn [getRelatedParts]. unfold bind, ret.
    set (head := if Nat.odd index
                 then if isRelationship element
                      then getRelationshipString element
                      else throw (mkError relatedMessage NoData)
                 else getNodeString element).
    assert (yields tok bp (head bp)) as Hpart.
    { unfold head.
      destruct (Nat.odd index); [destruct (isRelationship element)|].
      - by apply getRelationshipString_yields.
      - done.
      - by apply getNodeString_yields. }
    destruct (head bp) as [bp1 [part|e]]; [|done].
    destruct Hpart as (n1 & Hpart & Hf1).
    specialize (IH (S index) bp1 Hrest).
    destruct (getRelatedParts (S index) rest bp1) as [bp2 [parts|e]]; [|done].
    destruct IH as (n2 & (namess & Hparts & ->) & Hf2).
    exists (n1 ++ List.concat namess). split.
    + exists (n1 :: namess). split; [by constructor | done].
    + by eapply freshNames_app.
Qed.

Lemma getNodeStrings_yields nodes bp :
  dollarFreeAll (List.concat (List.map elementTexts nodes)) ->
  yields (eachWith tok) bp (mapM getNodeString nodes bp).
Proof.
  intros Htexts. apply yields_mapM. intros node Hin bp1.
  apply getNodeString_yields.
  rewrite Forall_forall in Htexts. apply Forall_forall. intros t Ht.
  apply Htexts. apply list_elem_of_In, in_concat.
  exists (elementTexts node). split; [by apply in_map | by apply list_elem_of_In].
Qed.

Lemma tok_joined sep parts names :
  dollarFree sep = true -> eachWith tok parts names ->
  tok (join sep parts) names.
Proof.
  intros Hsep (namess & Hparts & ->).
  apply tok_join; [by apply tok_dollarFree | done].
Qed.

Lemma dollarFree_join sep parts :
  dollarFree sep = true -> dollarFreeAll parts ->
  dollarFree (join sep parts) = true.
Proof.
  intros Hsep. unfold join.
  induction 1 as [|p parts Hp Hparts IH]; [done|].
  destruct parts as [|q parts]; [done|].
  change (String.concat sep (p :: q :: parts))
    with (p +:+ sep +:+ String.concat sep (q :: parts)).
  by rewrite !dollarFree_app, Hp, Hsep, IH.
Qed.

Lemma elementsTexts_singleton (element : option Element) e :
  element = Some e ->
  dollarFreeAll (elementsTexts (option_map (fun e => [e]) element)) ->
  dollarFreeAll (elementTexts e).
Proof. intros ->. simpl. by rewrite app_nil_r. Qed.

Lemma getMatchString_yields m bp :
  dollarFreeAll (matchTexts m) ->
  yields tok bp (getMatchString m bp).
Proof.
  destruct m as [s|o]; intros Htexts.
  - apply yields_ret. apply Forall_cons in Htexts as [Hs _].
    apply tok_dollarFree. by rewrite dollarFree_app, Hs.
  - unfold matchTexts in Htexts. rewrite !Forall_app in Htexts.
    destruct Htexts as (Hmultiple & Hrelated & Hliteral & Hnode).
    assert (dollarFree (optionalWord (m_optional o)) = true) as Hopt
      by by destruct (m_optional o).
    unfold getMatchString.
    destruct (m_multiple o) as [multiple|];
      [|destruct (m_related o) as [related|];
        [|destruct (m_literal o) as [literal|]]].
    + eapply yields_map; [by apply getNodeStrings_yields|].
      intros nodes names Hnodes. unfold join at 1. cbn [String.concat].
      tok_prefix. by apply tok_joined.
    + eapply yields_map; [by apply getRelatedParts_yields|].
      intros parts names Hparts. unfold join at 1. cbn [String.concat].
      tok_prefix. by apply tok_joined.
    + eapply yields_map;
        [apply getNodeString_yields;
         apply (elementsTexts_singleton (Some literal) literal eq_refl Hliteral)|].
      intros node names Hn. unfold join. cbn [String.concat].
      by tok_prefix.
    + eapply yields_map; [by apply getNodeString_yields|].
      intros node names Hn. unfold join. cbn [String.concat].
      by tok_prefix.
Qed.

Lemma dollarFree_createWord mode : dollarFree (createWord mode) = true.
Proof. by destruct mode. Qed.

Lemma getCreateOrMergeString_yields create mode bp :
  dollarFreeAll (createTexts create) ->
  yields tok bp (getCreateOrMergeString create mode bp).
Proof.
  pose proof (dollarFree_createWord mode) as Hword.
  destruct create as [s|o]; intros Htexts;
    unfold getCreateOrMergeString; fold (createWord mode).
  - apply yields_ret. apply Forall_cons in Htexts as [Hs _].
    apply tok_dollarFree. by rewrite !dollarFree_app, Hword, Hs.
  - unfold createTexts in Htexts. rewrite !Forall_app in Htexts.
    destruct Htexts as (Hmultiple & Hrelated & Hnode).
    apply elementTexts_object in Hnode as (Hid & Hl & Hm & _).
    destruct (c_multiple o) as [multiple|];
      [|destruct (c_related o) as [related|];
        [|destruct (label (c_node o)) as [l|];
          [|destruct (model (c_node o)) as [m|]]]].
    + eapply yields_map; [by apply getNodeStrings_yields|].
      intros nodes names Hnodes. unfold join at 1. cbn [String.concat].
      tok_prefix. by apply tok_joined.
    + eapply yields_map; [by apply getRelatedParts_yields|].
      intros parts names Hparts. unfold join at 1. cbn [String.concat].
      tok_prefix. by apply tok_joined.
    + eapply yields_map.
      * apply getNodeString_yields. simpl.
        apply Forall_cons in Hl as [Hl _]. by repeat constructor.
      * intros node names Hn. unfold join. cbn [String.concat].
        by tok_prefix.
    + eapply yields_map.
      * apply getNodeString_yields. simpl.
        simpl in Hm. apply Forall_cons in Hm as [Hm _].
        by repeat constructor.
      * intros node names Hn. unfold join. cbn [String.concat].
        by tok_prefix.
    + done.
Qed.

Lemma getSetString_yields set bp :
  dollarFreeAll (parameterTexts (Set_ set)) ->
  yields tokW bp (getSetString set bp).
Proof.
  destruct set as [s|identifier properties]; simpl; intros Htexts.
  - apply yields_ret, tok_tokW, tok_dollarFree.
    apply Forall_cons in Htexts as [Hs _]. by rewrite dollarFree_app, Hs.
  - apply Forall_cons in Htexts as [Hid Hkeys].
    by apply getSetPartsStatement_yields.
Qed.

Lemma getLimitString_yields limit bp :
  dollarFreeAll (parameterTexts (Limit limit)) ->
  yields tokW bp (getLimitString limit bp).
Proof.
  destruct limit as [s|n]; intros Htexts; unfold getLimitString.
  - simpl in Htexts.
    eapply (yields_map tok); [apply yields_ret, tok_dollarFree|].
    + by apply Forall_cons in Htexts as [? _].
    + intros limitString names Hl. apply tok_tokW. by tok_prefix.
  - eapply (yields_map tokW); [apply (yields_register "" "limit"); done|].
    intros limitString names Hl.
    by apply (tokW_app "LIMIT " _ [] _); [apply tok_dollarFree|].
Qed.

Lemma dollarFree_getDeleteString dlt :
  dollarFreeAll (parameterTexts (Delete dlt)) ->
  dollarFree (default "" (getDeleteString dlt)) = true.
Proof.
  destruct dlt as [s|o]; simpl; intros Htexts.
  - apply Forall_cons in Htexts as [Hs _]. by rewrite dollarFree_app, Hs.
  - apply Forall_app in Htexts as [Hids Hlit].
    assert (dollarFree (detachWord (d_detach o)) = true) as Hdetach
      by by destruct (d_detach o).
    destruct (d_identifiers o) as [ids|]; [|destruct (d_literal o) as [l|]];
      simpl.
    + rewrite !dollarFree_app, Hdetach. simpl.
      by apply dollarFree_join.
    + apply Forall_cons in Hlit as [Hl _].
      by rewrite !dollarFree_app, Hdetach, Hl.
    + done.
Qed.

Lemma dollarFree_getRemoveString remove :
  dollarFreeAll (parameterTexts (Remove remove)) ->
  dollarFree (default "" (getRemoveString remove)) = true.
Proof.
  destruct remove as [s|o]; simpl; intros Htexts.
  - apply Forall_cons in Htexts as [Hs _]. by rewrite dollarFree_app, Hs.
  - apply Forall_cons in Htexts as [Hid Htexts].
    apply Forall_app in Htexts as [Hps Hls].
    destruct (r_properties o) as [ps|]; [|destruct (r_labels o) as [ls|]];
      simpl.
    + rewrite dollarFree_app. simpl. apply dollarFree_join; [done|].
      apply Forall_forall. intros t Ht.
      apply list_elem_of_In, in_map_iff in Ht as (property & <- & Hin).
      rewrite !dollarFree_app, Hid. simpl.
      rewrite Forall_forall in Hps. apply Hps. by apply list_elem_of_In.
    + rewrite !dollarFree_app, Hid. simpl. by apply dollarFree_join.
    + done.
Qed.

Lemma dollarFree_getReturnString rtn :
  dollarFreeAll (parameterTexts (Return rtn)) ->
  dollarFree (getReturnString rtn) = true.
Proof.
  destruct rtn as [s|l|l]; simpl; intros Htexts.
  - apply Forall_cons in Htexts as [Hs _]. by rewrite dollarFree_app, Hs.
  - rewrite dollarFree_app. simpl. apply dollarFree_join; [done|].
    apply Forall_forall. intros t Ht.
    apply list_elem_of_In, in_map_iff in Ht as ([i property] & <- & Hin).
    assert (dollarFreeAll (i :: optionText property)) as Hv.
    { apply Forall_forall. intros t Ht.
      rewrite Forall_forall in Htexts. apply Htexts.
      apply list_elem_of_In, in_concat. eexists. split.
      - apply in_map_iff. by exists (i, property).
      - by apply list_elem_of_In. }
    apply Forall_cons in Hv as [Hi Hproperty]. simpl.
    rewrite dollarFree_app, Hi. simpl.
    destruct property as [property|]; [|done].
    destruct (String.eqb property ""); [done|].
    apply Forall_cons in Hproperty as [Hproperty _].
    by rewrite dollarFree_app, Hproperty.
  - rewrite dollarFree_app. simpl. by apply dollarFree_join.
Qed.

Lemma getStatementPart_yields param bp :
  dollarFreeAll (parameterTexts param) ->
  yields partWith bp (getStatementPart param bp).
Proof.
  intros Htexts. unfold partWith.
  destruct param as [raw|m|c|c|set|dlt|remove|rtn|limit|w];
    unfold getStatementPart.
  - apply yields_ret, tok_tokW, tok_dollarFree.
    by apply Forall_cons in Htexts as [? _].
  - eapply (yields_map tok); [by apply getMatchString_yields|].
    intros s names Hs. by apply tok_tokW.
  - eapply (yields_map tok); [by apply getCreateOrMergeString_yields|].
    intros s names Hs. by apply tok_tokW.
  - eapply (yields_map tok); [by apply getCreateOrMergeString_yields|].
    intros s names Hs. by apply tok_tokW.
  - eapply (yields_map tokW); [by apply getSetString_yields|]. done.
  - apply yields_ret, tok_tokW, tok_dollarFree.
    by apply dollarFree_getDeleteString.
  - apply yields_ret, tok_tokW, tok_dollarFree.
    by apply dollarFree_getRemoveString.
  - apply yields_ret, tok_tokW, tok_dollarFree.
    by apply dollarFree_getReturnString.
  - eapply (yields_map tokW); [by apply getLimitString_yields|]. done.
  - apply yields_ret, tok_tokW, tok_dollarFree. simpl.
    unfold getWithString. rewrite dollarFree_app. simpl.
    by apply dollarFree_join.
Qed.

Lemma setStatementByParameters_yields parameters bp :
  dollarFreeAll (parametersTexts parameters) ->
  yields (fun stmt names => placeholders stmt = names) bp
         (setStatementByParameters parameters bp).
Proof.
  intros Htexts. unfold setStatementByParameters.
  eapply yields_map.
  - apply (yields_mapM partWith). intros param Hin bp1.
    apply getStatementPart_yields.
    rewrite Forall_forall in Htexts. apply Forall_forall. intros t Ht.
    apply Htexts. apply list_elem_of_In, in_concat.
    exists (parameterTexts param).
    split; [by apply in_map | by apply list_elem_of_In].
  - intros parts names (namess & Hparts & ->).
    unfold replaceWhitespace. rewrite placeholders_replaceWhitespaceFrom.
    apply tokW_placeholders. unfold joinParts.
    apply tokW_join; [by apply tok_dollarFree|done|done|].
    by apply Forall2_fmap_l.
Qed.

(** C1, as the code has it.  When the text supplied by the caller (raw
    fragments, identifiers, labels, relationship names, attribute and
    property names) contains no dollar sign and sanitized names are valid
    placeholder identifiers: the placeholders occurring in a compiled
    statement are pairwise distinct, each has its entry in the table
    handed back, none was in the table the compilation started from, and
    the entries of that table are kept. *)
Theorem placeholders_registered parameters config bp stmt :
  dollarFreeAll (parametersTexts parameters) ->
  newQueryBuilder parameters config = (bp, Ok stmt) ->
  NoDup (placeholders stmt)
  /\ Forall (fun n => is_Some (bp !! n) /\ default ∅ config !! n = None)
            (placeholders stmt)
  /\ default ∅ config ⊆ bp.
Proof.
  intros Htexts. unfold newQueryBuilder. intros Hrun.
  pose proof (setStatementByParameters_yields parameters (default ∅ config)
                Htexts) as Hy.
  rewrite Hrun in Hy. destruct Hy as (names & -> & Hsub & Hnd & Hall).
  split; [done|]. split; [|done].
  eapply Forall_impl; [exact Hall|]. by intros n [? ?].
Qed.

End Sanitized.

(** * Further properties *)

(** ** Where.ensureIn and the value guards *)

Lemma isNeo4jSupportedTypes_not_object opIn fields :
  isNeo4jSupportedTypes (VObject opIn fields) = false.
Proof. reflexivity. Qed.


(** ** Where.addParams: what is accumulated *)

Lemma tupleIs_weaken (bp bp' : BindParam) d e :
  bp ⊆ bp' -> tupleIs bp d e -> tupleIs bp' d e.
Proof.
  intros Hsub (Hkey & n & Hn & Hlookup). split; [done|].
  exists n. split; [done|]. by eapply lookup_weaken.
Qed.

Lemma setBindParamName_entries nodeIdentifier bp ipd property v bp' ipd' :
  setBindParamName nodeIdentifier (bp, ipd) (property, v) = (bp', ipd') ->
  exists new,
    ipd' = ipd ++ new
    /\ Forall2 (tupleIs bp') new
         (match operatorOf v with
          | Some op => [(nodeIdentifier, property, op, registeredValue v)]
          | None => []
          end)
    /\ bp ⊆ bp'
    /\ size bp' = (size bp + List.length new)%nat.
Proof.
  unfold setBindParamName, getNameAndAddToParams, getUniqueNameAndAdd,
    operatorOf, registeredValue.
  pose proof (getUniqueName_free bp property) as Hfree.
  destruct (isNeo4jSupportedTypes v);
    [|destruct (isWhereIn v)]; intros [= <- <-].
  - eexists [_]. split; [done|]. split; [|split].
    + constructor; [|constructor]. split; [done|].
      eexists. split; [done|]. apply lookup_insert_eq.
    + by apply insert_subseteq.
    + rewrite map_size_insert_None by done. simpl. lia.
  - eexists [_]. split; [done|]. split; [|split].
    + constructor; [|constructor]. split; [done|].
      eexists. split; [done|]. apply lookup_insert_eq.
    + by apply insert_subseteq.
    + rewrite map_size_insert_None by done. simpl. lia.
  - exists []. rewrite app_nil_r. split; [done|]. split; [constructor|].
    split; [done|]. simpl. lia.
Qed.

Lemma setBindParamNames_entries nodeIdentifier ps bp ipd bp' ipd' :
  fold_left (setBindParamName nodeIdentifier) ps (bp, ipd) = (bp', ipd') ->
  exists new,
    ipd' = ipd ++ new
    /\ Forall2 (tupleIs bp') new (expectedEntries [(nodeIdentifier, ps)])
    /\ bp ⊆ bp'
    /\ size bp' = (size bp + List.length new)%nat.
Proof.
  unfold expectedEntries. cbn [flat_map fst snd]. rewrite app_nil_r.
  revert bp ipd. induction ps as [|[property v] ps IH]; intros bp ipd;
    cbn [fold_left flat_map fst snd].
  - intros [= <- <-]. exists []. rewrite app_nil_r.
    split; [done|]. split; [constructor|]. split; [done|]. simpl. lia.
  - destruct (setBindParamName nodeIdentifier (bp, ipd) (property, v))
      as [bp1 ipd1] eqn:Hstep.
    apply setBindParamName_entries in Hstep
      as (new1 & -> & Hnew1 & Hsub1 & Hsize1).
    intros Hrest.
    apply IH in Hrest as (new2 & -> & Hnew2 & Hsub2 & Hsize2).
    exists (new1 ++ new2). split; [by rewrite (assoc_L (++))|].
    split; [|split].
    + apply Forall2_app; [|done].
      eapply Forall2_impl; [exact Hnew1|].
      intros d e. by apply tupleIs_weaken.
    + by etrans.
    + rewrite length_app. lia.
Qed.

Lemma expectedEntries_cons entry params :
  expectedEntries (entry :: params)
  = expectedEntries [entry] ++ expectedEntries params.
Proof.
  unfold expectedEntries. cbn [flat_map]. by rewrite app_nil_r.
Qed.

Lemma setBindParamNamesLoop_entries params bp ipd bp' ipd' :
  setBindParamNamesLoop params (bp, ipd) = (bp', ipd') ->
  exists new,
    ipd' = ipd ++ new
    /\ Forall2 (tupleIs bp') new (expectedEntries params)
    /\ bp ⊆ bp'
    /\ size bp' = (size bp + List.length new)%nat.
Proof.
  unfold setBindParamNamesLoop.
  revert bp ipd. induction params as [|[i ps] params IH]; intros bp ipd;
    cbn [fold_left fst snd].
  - intros [= <- <-]. exists []. rewrite app_nil_r.
    split; [done|]. split; [constructor|]. split; [done|]. simpl. lia.
  - destruct (fold_left (setBindParamName i) ps (bp, ipd))
      as [bp1 ipd1] eqn:Hstep.
    apply setBindParamNames_entries in Hstep
      as (new1 & -> & Hnew1 & Hsub1 & Hsize1).
    intros Hrest.
    apply IH in Hrest as (new2 & -> & Hnew2 & Hsub2 & Hsize2).
    exists (new1 ++ new2). split; [by rewrite (assoc_L (++))|].
    split; [|split].
    + rewrite expectedEntries_cons.
      apply Forall2_app; [|done].
      eapply Forall2_impl; [exact Hnew1|].
      intros d e. by apply tupleIs_weaken.
    + by etrans.
    + rewrite length_app. lia.
Qed.


Lemma getStatement_object_Ok_iff w :
  (exists s, getStatement w ModeObject = Ok s)
  <-> Forall (fun d => operator d = OpEquals) (identifierPropertyData w).
Proof.
  unfold getStatement.
  rewrite <- (Forall_iff _ _ _ statementPart_object_Ok).
  rewrite <- mapR_Ok_iff.
  destruct (mapR _ _) as [parts|e]; split; intros [s Hs];
    try done; eexists; reflexivity.
Qed.

Lemma tupleIs_operators bp new expected :
  Forall2 (tupleIs bp) new expected ->
  Forall (fun d => operator d = OpEquals) new
  <-> Forall (fun e => e.1.2 = OpEquals) expected.
Proof.
  induction 1 as [|d e new expected (Hkey & _) _ IH].
  - split; constructor.
  - rewrite !Forall_cons, IH. unfold tupleKey in Hkey.
    destruct e as [[[i p] op] v]. simpl in *.
    injection Hkey as _ _ <-. done.
Qed.

Lemma expectedEntries_operators params :
  Forall (fun e => e.1.2 = OpEquals) (expectedEntries params)
  <-> Forall (fun entry =>
                Forall (fun pv => operatorOf pv.2 <> Some OpIn) entry.2)
             params.
Proof.
  induction params as [|[i ps] params IH].
  - split; constructor.
  - rewrite expectedEntries_cons, Forall_app, Forall_cons, IH.
    assert (Forall (fun e => e.1.2 = OpEquals) (expectedEntries [(i, ps)])
            <-> Forall (fun pv => operatorOf pv.2 <> Some OpIn) ps) as ->;
      [|done].
    unfold expectedEntries. cbn [flat_map fst snd]. rewrite app_nil_r.
    induction ps as [|[p v] ps IHps]; [split; constructor|].
    cbn [flat_map fst snd]. rewrite Forall_app, Forall_cons, IHps.
    cbn [snd]. destruct (operatorOf v) as [[]|];
      rewrite ?Forall_cons, ?Forall_nil; simpl; intuition congruence.
Qed.

(** X3: rendering a newly constructed Where in object mode succeeds
    exactly when no attribute of its (merged) parameters carries an
    [Op.in] wrapper; attributes with unsupported values do not matter,
    they are skipped. *)
Theorem newWhere_object_mode whereParams bindParam :
  (exists s,
     getStatement (newWhere whereParams bindParam).2 ModeObject = Ok s)
  <-> Forall (fun entry =>
                Forall (fun pv => operatorOf pv.2 <> Some OpIn) entry.2)
             (dict_assign_all [whereParams]).
Proof.
  rewrite getStatement_object_Ok_iff, <- expectedEntries_operators.
  unfold newWhere, addParams, setBindParamNames.
  cbn [rawParams identifierPropertyData app].
  destruct (setBindParamNamesLoop _ _) as [bp' ipd'] eqn:Hloop.
  apply setBindParamNamesLoop_entries in Hloop
    as (new & -> & Hnew & _ & _).
  cbn [snd identifierPropertyData app]. by eapply tupleIs_operators.
Qed.

(** ** The merge of the raw parameters *)

Lemma dict_has_false_get {A} (k : string) (o : dict A) :
  dict_has k o = false -> dict_get k o = None.
Proof.
  unfold dict_has, dict_get. induction o as [|[k0 v0] o IH]; [done|].
  simpl. destruct (String.eqb k k0); [done|]. apply IH.
Qed.

Lemma dict_has_false_keys {A} (k : string) (o : dict A) :
  dict_has k o = false <-> k ∉ List.map fst o.
Proof.
  unfold dict_has. induction o as [|[k0 v0] o IH]; simpl.
  - split; [intros _; apply not_elem_of_nil | done].
  - rewrite not_elem_of_cons, <- IH, orb_false_iff.
    destruct (String.eqb_spec k k0) as [->|Hne]; split.
    + by intros [? _].
    + by intros [? _].
    + by intros [_ ?].
    + by intros [_ ?].
Qed.

Lemma dict_get_app {A} (k : string) (o1 o2 : dict A) :
  dict_get k (o1 ++ o2)
  = match dict_get k o1 with
    | Some v => Some v
    | None => dict_get k o2
    end.
Proof.
  unfold dict_get. induction o1 as [|[k0 v0] o1 IH]; [done|].
  simpl. destruct (String.eqb k k0); [done|]. apply IH.
Qed.

Lemma dict_get_replace_ne {A} (k k' : string) (v : A) (o : dict A) :
  String.eqb k k' = false ->
  dict_get k
    (List.map (fun kv => if String.eqb k' kv.1 then (k', v) else kv) o)
  = dict_get k o.
Proof.
  intros Hne. unfold dict_get. induction o as [|[k0 v0] o IH]; [done|].
  simpl. destruct (String.eqb_spec k' k0) as [<-|]; simpl.
  - rewrite Hne. apply IH.
  - destruct (String.eqb k k0); [done|]. apply IH.
Qed.

Lemma dict_get_replace_eq {A} (k : string) (v : A) (o : dict A) :
  dict_has k o = true ->
  dict_get k
    (List.map (fun kv => if String.eqb k kv.1 then (k, v) else kv) o)
  = Some v.
Proof.
  unfold dict_has, dict_get. induction o as [|[k0 v0] o IH]; [done|].
  simpl. destruct (String.eqb k k0) eqn:Hk; simpl.
  - by rewrite String.eqb_refl.
  - rewrite Hk. apply IH.
Qed.

Lemma dict_get_set {A} (k k' : string) (v : A) (o : dict A) :
  dict_get k (dict_set o k' v)
  = if String.eqb k k' then Some v else dict_get k o.
Proof.
  unfold dict_set. destruct (dict_has k' o) eqn:Hhas.
  - destruct (String.eqb_spec k k') as [->|Hne].
    + by apply dict_get_replace_eq.
    + apply dict_get_replace_ne. by apply String.eqb_neq.
  - rewrite dict_get_app.
    destruct (String.eqb_spec k k') as [->|Hne].
    + rewrite dict_has_false_get by done. unfold dict_get. simpl.
      by rewrite String.eqb_refl.
    + destruct (dict_get k o); [done|]. unfold dict_get. simpl.
      apply String.eqb_neq in Hne. by rewrite Hne.
Qed.

Lemma dict_set_keys {A} (k : string) (v : A) (o : dict A) :
  NoDup (List.map fst o) -> NoDup (List.map fst (dict_set o k v)).
Proof.
  intros Hnd. unfold dict_set. destruct (dict_has k o) eqn:Hhas.
  - assert (List.map fst
              (List.map (fun kv => if String.eqb k kv.1 then (k, v) else kv) o)
            = List.map fst o) as ->; [|done].
    clear. induction o as [|[k0 v0] o IH]; [done|]. simpl.
    rewrite IH. by destruct (String.eqb_spec k k0) as [->|].
  - rewrite map_app. simpl. apply NoDup_app. split; [done|].
    split; [|apply NoDup_singleton].
    intros x Hx Hk. apply list_elem_of_singleton in Hk as ->.
    by apply dict_has_false_keys in Hhas.
Qed.

Lemma dict_assign_keys {A} (target source : dict A) :
  NoDup (List.map fst target) ->
  NoDup (List.map fst (dict_assign target source)).
Proof.
  unfold dict_assign. revert target.
  induction source as [|[k v] source IH]; intros target Hnd; [done|].
  simpl. apply IH. by apply dict_set_keys.
Qed.

Lemma dict_get_assign {A} (k : string) (target source : dict A) :
  NoDup (List.map fst source) ->
  dict_get k (dict_assign target source)
  = match dict_get k source with
    | Some v => Some v
    | None => dict_get k target
    end.
Proof.
  unfold dict_assign. revert target.
  induction source as [|[k' v'] source IH]; intros target Hnd; [done|].
  simpl in Hnd. apply NoDup_cons in Hnd as [Hk' Hnd].
  cbn [fold_left fst snd]. rewrite IH by done. rewrite dict_get_set.
  unfold dict_get at 3. simpl. fold (dict_get k source).
  destruct (String.eqb_spec k k') as [->|Hne]; [|done].
  apply dict_has_false_keys, dict_has_false_get in Hk'. by rewrite Hk'.
Qed.

Lemma dict_assign_fresh {A} (target source : dict A) :
  NoDup (List.map fst source) ->
  (forall k, k ∈ List.map fst source -> dict_has k target = false) ->
  dict_assign target source = target ++ source.
Proof.
  unfold dict_assign. revert target.
  induction source as [|[k v] source IH]; intros target Hnd Hfresh.
  - by rewrite app_nil_r.
  - simpl in Hnd. apply NoDup_cons in Hnd as [Hk Hnd].
    cbn [fold_left fst snd]. unfold dict_set at 2.
    rewrite Hfresh by (simpl; left).
    rewrite IH; [by rewrite <- (assoc_L (++))|done|].
    intros k' Hk'. apply dict_has_false_keys.
    rewrite map_app. simpl. rewrite elem_of_app, list_elem_of_singleton.
    intros [Hin| ->]; [|done].
    specialize (Hfresh k'). simpl in Hfresh.
    rewrite dict_has_false_keys in Hfresh. apply Hfresh; [by right|done].
Qed.

(** X4: the merge of the raw parameters done by [setBindParamNames] is
    shallow and last-write-wins by identifier: the merged object has each
    identifier once; an identifier of the map added last has that map's
    attributes only, whatever the earlier maps said about it, and any
    other identifier keeps what the earlier maps gave; merging a single
    map gives that map. *)
Theorem merge_is_shallow {A : Type} :
  (forall sources : list (dict A),
     NoDup (List.map fst (dict_assign_all sources)))
  /\ (forall (sources : list (dict A)) (last : dict A) (k : string),
        NoDup (List.map fst last) ->
        dict_get k (dict_assign_all (sources ++ [last]))
        = match dict_get k last with
          | Some v => Some v
          | None => dict_get k (dict_assign_all sources)
          end)
  /\ (forall p : dict A,
        NoDup (List.map fst p) -> dict_assign_all [p] = p).
Proof.
  split; [|split].
  - intros sources. unfold dict_assign_all.
    assert (forall target : dict A,
              NoDup (List.map fst target) ->
              NoDup (List.map fst (fold_left dict_assign sources target)))
      as Hgen; [|apply Hgen; constructor].
    induction sources as [|source sources IH]; intros target Hnd; [done|].
    simpl. apply IH. by apply dict_assign_keys.
  - intros sources last k Hnd. unfold dict_assign_all.
    rewrite fold_left_app. simpl. by apply dict_get_assign.
  - intros p Hnd. unfold dict_assign_all. simpl.
    by apply dict_assign_fresh.
Qed.

(** ** Normalization and the composition of clause lists *)

Lemma replaceWhitespaceFrom_app b x y :
  replaceWhitespaceFrom b (x +:+ y)
  = replaceWhitespaceFrom b x
    +:+ replaceWhitespaceFrom (endsInRun b x) y.
Proof.
  revert b. induction x as [|c x IH]; intros b; [done|].
  rewrite append_cons. simpl. destruct (isWhitespace c).
  - destruct b; rewrite IH; [done|]. by rewrite append_cons.
  - rewrite IH. by rewrite append_cons.
Qed.

Lemma replaceWhitespaceFrom_fixed b s :
  normalizedFrom b s = true -> replaceWhitespaceFrom b s = s.
Proof.
  revert b. induction s as [|c s IH]; intros b; [done|]. simpl.
  destruct (isWhitespace c).
  - intros Hn. apply andb_true_iff in Hn as [Hn Hs].
    apply andb_true_iff in Hn as [Hc Hb].
    apply Ascii.eqb_eq in Hc as ->. apply negb_true_iff in Hb as ->.
    by rewrite IH.
  - intros Hs. by rewrite IH.
Qed.

Lemma endsInRun_replaceWhitespaceFrom b x :
  endsInRun b (replaceWhitespaceFrom b x) = endsInRun b x.
Proof.
  revert b. induction x as [|c x IH]; intros b; [done|]. simpl.
  destruct (isWhitespace c) eqn:Hc.
  - destruct b; [apply IH|]. simpl. apply IH.
  - simpl. rewrite Hc. apply IH.
Qed.

Lemma replaceWhitespaceFrom_twice b y :
  replaceWhitespaceFrom b (replaceWhitespaceFrom false y)
  = replaceWhitespaceFrom b y.
Proof.
  destruct b.
  - destruct y as [|c y]; [done|]. simpl.
    destruct (isWhitespace c) eqn:Hc; simpl.
    + apply replaceWhitespaceFrom_fixed, replaceWhitespaceFrom_normalized.
    + rewrite Hc. f_equal.
      apply replaceWhitespaceFrom_fixed, replaceWhitespaceFrom_normalized.
  - apply replaceWhitespaceFrom_fixed, replaceWhitespaceFrom_normalized.
Qed.

Lemma replaceWhitespace_app x y :
  replaceWhitespace (x +:+ y)
  = replaceWhitespace (replaceWhitespace x +:+ replaceWhitespace y).
Proof.
  unfold replaceWhitespace. rewrite !replaceWhitespaceFrom_app.
  rewrite endsInRun_replaceWhitespaceFrom.
  rewrite !replaceWhitespaceFrom_twice. done.
Qed.

(** X5: the whitespace normalization of the final assembly is idempotent,
    leaves a normalized text as it is, and may be applied to the pieces of
    a text before it is applied to the whole. *)
Theorem normalization_idempotent :
  (forall s, replaceWhitespace (replaceWhitespace s) = replaceWhitespace s)
  /\ (forall s, normalized s = true -> replaceWhitespace s = s)
  /\ (forall x y,
        replaceWhitespace (x +:+ y)
        = replaceWhitespace (replaceWhitespace x +:+ replaceWhitespace y)).
Proof.
  split; [|split].
  - intros s. apply (replaceWhitespaceFrom_twice false).
  - intros s. apply replaceWhitespaceFrom_fixed.
  - apply replaceWhitespace_app.
Qed.

Lemma mapM_Ok_app {A B} (f : A -> M B) xs ys bp bp1 bp2 l1 l2 :
  mapM f xs bp = (bp1, Ok l1) ->
  mapM f ys bp1 = (bp2, Ok l2) ->
  mapM f (xs ++ ys) bp = (bp2, Ok (l1 ++ l2)).
Proof.
  revert bp l1. induction xs as [|x xs IH]; intros bp l1.
  - cbn [mapM app]. unfold ret. by intros [= <- <-].
  - cbn [mapM app]. unfold bind, ret.
    destruct (f x bp) as [bp' [y|e]]; [|done].
    destruct (mapM f xs bp') as [bp'' [ys'|e]] eqn:Hxs; [|done].
    intros [= <- <-] Hys. by rewrite (IH bp' ys' Hxs Hys).
Qed.

Lemma mapM_Ok_length {A B} (f : A -> M B) xs bp bp' l :
  mapM f xs bp = (bp', Ok l) -> List.length l = List.length xs.
Proof.
  revert bp l. induction xs as [|x xs IH]; intros bp l.
  - cbn [mapM]. unfold ret. by intros [= <- <-].
  - cbn [mapM]. unfold bind, ret.
    destruct (f x bp) as [bp1 [y|e]]; [|done].
    destruct (mapM f xs bp1) as [bp2 [ys|e]] eqn:Hxs; [|done].
    intros [= <- <-]. simpl. by rewrite (IH bp1 ys).
Qed.

Lemma join_app sep (l1 l2 : list string) :
  l1 <> [] -> l2 <> [] ->
  join sep (l1 ++ l2) = join sep l1 +:+ sep +:+ join sep l2.
Proof.
  unfold join. intros Hl1 Hl2.
  induction l1 as [|p l1 IH]; [done|].
  destruct l1 as [|q l1].
  - destruct l2 as [|r l2]; [done|]. reflexivity.
  - change (String.concat sep ((p :: q :: l1) ++ l2))
      with (p +:+ sep +:+ String.concat sep ((q :: l1) ++ l2)).
    rewrite IH by done.
    change (String.concat sep (p :: q :: l1))
      with (p +:+ sep +:+ String.concat sep (q :: l1)).
    by rewrite !append_assoc.
Qed.

(** X6: compiling no clause gives the empty statement and leaves the
    table as it is; compiling two non-empty clause lists in a row, the
    second on the table left by the first, gives the table and (up to
    normalization) the two statements separated by one space that
    compiling their concatenation gives. *)
Theorem compile_concatenation :
  (forall bp, setStatementByParameters [] bp = (bp, Ok ""))
  /\ (forall ps1 ps2 bp bp1 bp2 s1 s2,
        ps1 <> [] -> ps2 <> [] ->
        setStatementByParameters ps1 bp = (bp1, Ok s1) ->
        setStatementByParameters ps2 bp1 = (bp2, Ok s2) ->
        setStatementByParameters (ps1 ++ ps2) bp
        = (bp2, Ok (replaceWhitespace (s1 +:+ " " +:+ s2)))).
Proof.
  split; [done|].
  intros ps1 ps2 bp bp1 bp2 s1 s2 Hps1 Hps2.
  unfold setStatementByParameters, bind, ret.
  destruct (mapM getStatementPart ps1 bp) as [bp1' [l1|e]] eqn:H1; [|done].
  intros [= -> <-].
  destruct (mapM getStatementPart ps2 bp1) as [bp2' [l2|e]] eqn:H2; [|done].
  intros [= -> <-].
  rewrite (mapM_Ok_app _ _ _ _ _ _ _ _ H1 H2). f_equal. f_equal.
  unfold joinParts. rewrite map_app, join_app.
  - set (j1 := join newline (List.map (default "") l1)).
    set (j2 := join newline (List.map (default "") l2)).
    rewrite (replaceWhitespace_app j1).
    rewrite (replaceWhitespace_app (replaceWhitespace j1)
               (" " +:+ replaceWhitespace j2)).
    f_equal. f_equal.
    + symmetry. apply (replaceWhitespaceFrom_twice false).
    + unfold replaceWhitespace, newline. rewrite !append_cons. simpl.
      f_equal. symmetry. apply replaceWhitespaceFrom_twice.
  - apply mapM_Ok_length in H1. destruct l1; [|done]. by destruct ps1.
  - apply mapM_Ok_length in H2. destruct l2; [|done]. by destruct ps2.
Qed.

Lemma mapM_Throw_iff {A B} (f : A -> M B) xs bp bp' e :
  mapM f xs bp = (bp', Throw e)
  <-> exists pre x post bp1 parts,
        xs = pre ++ x :: post
        /\ mapM f pre bp = (bp1, Ok parts)
        /\ f x bp1 = (bp', Throw e).
Proof.
  revert bp. induction xs as [|x xs IH]; intros bp.
  - split; [done|]. intros (pre & y & post & _ & _ & Hxs & _).
    by destruct pre.
  - cbn [mapM]. unfold bind, ret. split.
    + destruct (f x bp) as [bp1 [y|e']] eqn:Hx.
      * destruct (mapM f xs bp1) as [bp2 [ys|e']] eqn:Hxs; [done|].
        intros [= <- <-].
        apply IH in Hxs as (pre & z & post & bp3 & parts & -> & Hpre & Hz).
        exists (x :: pre), z, post, bp3, (y :: parts).
        split; [done|]. split; [|done].
        cbn [mapM]. unfold bind, ret. by rewrite Hx, Hpre.
      * intros [= <- <-]. by exists [], x, xs, bp, [].
    + intros (pre & z & post & bp1 & parts & Hxs & Hpre & Hz).
      destruct pre as [|x' pre].
      * simpl in Hxs. injection Hxs as <- <-.
        cbn [mapM] in Hpre. unfold ret in Hpre. injection Hpre as <- <-.
        by rewrite Hz.
      * simpl in Hxs. injection Hxs as <- ->.
        cbn [mapM] in Hpre. unfold bind, ret in Hpre.
        destruct (f x bp) as [bp2 [y|e']]; [|done].
        destruct (mapM f pre bp2) as [bp3 [ys|e']] eqn:Hpre'; [|done].
        injection Hpre as <- <-.
        assert (mapM f (pre ++ z :: post) bp2 = (bp', Throw e)) as ->; [|done].
        apply IH. by exists pre, z, post, bp3, ys.
Qed.

(** X7: a compilation throws exactly when one clause throws on the table
    left by the clauses before it, all of which rendered; the error is the
    error of that clause, the table handed back is the table at the
    fault, and the clauses after it have no effect. *)
Theorem compile_fault ps bp bp' e :
  setStatementByParameters ps bp = (bp', Throw e)
  <-> exists pre p post bp1 parts,
        ps = pre ++ p :: post
        /\ renderedInOrder getStatementPart bp pre parts bp1
        /\ getStatementPart p bp1 = (bp', Throw e).
Proof.
  unfold setStatementByParameters, bind, ret. split.
  - destruct (mapM getStatementPart ps bp) as [bp1 [parts|e']] eqn:Hps;
      [done|].
    intros [= <- <-].
    apply mapM_Throw_iff in Hps
      as (pre & p & post & bp2 & parts & -> & Hpre & Hp).
    exists pre, p, post, bp2, parts. split; [done|].
    split; [by apply mapM_rendered | done].
  - intros (pre & p & post & bp1 & parts & -> & Hpre & Hp).
    apply mapM_rendered in Hpre.
    assert (mapM getStatementPart (pre ++ p :: post) bp = (bp', Throw e))
      as ->; [|done].
    apply mapM_Throw_iff. by exists pre, p, post, bp1, parts.
Qed.

(** ** What a compilation never does *)

Lemma safe_ret {A} (a : A) : safe (ret a).
Proof. intros bp. by split. Qed.

Lemma safe_bind {A B} (m : M A) (k : A -> M B) :
  safe m -> (forall a, safe (k a)) -> safe (bind m k).
Proof.
  intros Hm Hk bp. unfold bind.
  destruct (Hm bp) as [Hsub Herr].
  destruct (m bp) as [bp1 [a|e]]; simpl in *.
  - destruct (Hk a bp1) as [Hsub1 Herr1]. split; [by etrans | done].
  - split; [done|]. intros e0 [= <-]. by apply Herr.
Qed.

Lemma safe_mapM {A B} (f : A -> M B) xs :
  (forall x, safe (f x)) -> safe (mapM f xs).
Proof.
  intros Hf. induction xs as [|x xs IH]; [apply safe_ret|].
  cbn [mapM]. apply safe_bind; [done|]. intros y.
  apply safe_bind; [done|]. intros ys. apply safe_ret.
Qed.

Lemma safe_register {A} baseName v (g : string -> A) :
  safe (fun bp =>
          let '(bp', name) := getUniqueNameAndAdd baseName v bp in
          (bp', Ok (g name))).
Proof.
  intros bp. unfold getUniqueNameAndAdd. simpl. split; [|done].
  apply insert_subseteq, getUniqueName_free.
Qed.

Lemma getStatement_object_error w e :
  getStatement w ModeObject = Throw e ->
  e = mkError objectModeMessage (ActualModeOperator ModeObject OpIn).
Proof.
  unfold getStatement.
  destruct (mapR _ _) as [parts|e'] eqn:Hparts; [done|]. intros [= <-].
  induction (identifierPropertyData w) as [|d ds IH]; [done|].
  cbn [mapR] in Hparts. unfold statementPart at 1 in Hparts.
  cbn [operatorForStatement] in Hparts.
  destruct (operator d).
  - destruct (mapR (statementPart ModeObject) ds) as [parts|e''];
      [done|]. injection Hparts as ->. by apply IH.
  - by injection Hparts as <-.
Qed.

Lemma safe_getPropertiesWithParams properties :
  safe (getPropertiesWithParams properties).
Proof.
  unfold getPropertiesWithParams. apply safe_bind.
  - apply safe_mapM. intros kv.
    apply (safe_register kv.1 kv.2 (fun name => kv.1 +:+ ": $" +:+ name)).
  - intros parts. apply safe_ret.
Qed.

Lemma safe_getInnerString inner : safe (getInnerString inner).
Proof.
  destruct inner as [[w|properties]|]; unfold getInnerString.
  - apply safe_bind; [|intros s; apply safe_ret].
    intros bp. unfold lift. simpl. split; [done|].
    intros e He. left. by eapply getStatement_object_error.
  - apply safe_bind; [apply safe_getPropertiesWithParams|].
    intros s. apply safe_ret.
  - apply safe_ret.
Qed.

Lemma newWhere_grows whereParams bp :
  bp ⊆ (newWhere whereParams (Some bp)).1.
Proof.
  unfold newWhere, addParams, setBindParamNames.
  cbn [rawParams identifierPropertyData acquire].
  destruct (setBindParamNamesLoop _ _) as [bp' ipd'] eqn:Hloop.
  by apply setBindParamNamesLoop_entries in Hloop as (new & _ & _ & Hsub & _).
Qed.

(** An element renderer that builds the Where of the element, if any,
    before it renders. *)
Lemma safe_element (identifier : string) (w : option WhereParamsI)
    (ps : option (dict value)) (render : option Inner -> M string) :
  (forall inner, safe (render inner)) ->
  safe (match w, ps with
        | Some w, _ =>
            fun bp =>
              let '(bp', inner) := newWhere [(identifier, w)] (Some bp) in
              render (Some (InnerWhere inner)) bp'
        | None, Some ps => render (Some (InnerProperties ps))
        | None, None => render None
        end).
Proof.
  intros Hrender. destruct w as [w|]; [|destruct ps; apply Hrender].
  intros bp. pose proof (newWhere_grows [(identifier, w)] bp) as Hsub.
  destruct (newWhere [(identifier, w)] (Some bp)) as [bp1 wh].
  destruct (Hrender (Some (InnerWhere wh)) bp1) as [Hsub1 Herr].
  split; [by etrans | done].
Qed.

Lemma safe_getNodeString node : safe (getNodeString node).
Proof.
  destruct node as [s|o]; [apply safe_ret|]. unfold getNodeString.
  apply safe_element. intros inner. unfold getNodeStatement.
  apply safe_bind; [apply safe_getInnerString|].
  intros i. apply safe_ret.
Qed.

Lemma safe_getRelationshipString relationship :
  safe (getRelationshipString relationship).
Proof.
  destruct relationship as [s|o]; [apply safe_ret|].
  unfold getRelationshipString.
  apply safe_element. intros inner. unfold getRelationshipStatement.
  apply safe_bind; [apply safe_getInnerString|].
  intros i. apply safe_ret.
Qed.

Lemma safe_getRelatedParts related index :
  safe (getRelatedParts index related).
Proof.
  revert index. induction related as [|element rest IH]; intros index;
    [apply safe_ret|].
  cbn [getRelatedParts]. apply safe_bind.
  - destruct (Nat.odd index); [destruct (isRelationship element)|].
    + apply safe_getRelationshipString.
    + intros bp. split; [done|]. intros e [= <-]. right. by left.
    + apply safe_getNodeString.
  - intros part. apply safe_bind; [apply IH|].
    intros parts. apply safe_ret.
Qed.

Lemma safe_getMatchString m : safe (getMatchString m).
Proof.
  destruct m as [s|o]; [apply safe_ret|]. unfold getMatchString.
  destruct (m_multiple o); [|destruct (m_related o);
                              [|destruct (m_literal o)]];
    (apply safe_bind; [|intros x; apply safe_ret]).
  - apply safe_mapM, safe_getNodeString.
  - apply safe_getRelatedParts.
  - apply safe_getNodeString.
  - apply safe_getNodeString.
Qed.

Lemma safe_getCreateOrMergeString create mode :
  safe (getCreateOrMergeString create mode).
Proof.
  destruct create as [s|o]; [apply safe_ret|].
  unfold getCreateOrMergeString.
  destruct (c_multiple o); [|destruct (c_related o);
                              [|destruct (label (c_node o));
                                [|destruct (model (c_node o))]]].
  - apply safe_bind; [apply safe_mapM, safe_getNodeString|].
    intros x. apply safe_ret.
  - apply safe_bind; [apply safe_getRelatedParts|].
    intros x. apply safe_ret.
  - apply safe_bind; [apply safe_getNodeString|]. intros x. apply safe_ret.
  - apply safe_bind; [apply safe_getNodeString|]. intros x. apply safe_ret.
  - intros bp. split; [done|]. intros e [= <-]. right. right. by eexists.
Qed.

Lemma safe_getStatementPart param : safe (getStatementPart param).
Proof.
  destruct param as [raw|m|c|c|[s|i ps]|dlt|remove|rtn|[s|n]|w];
    unfold getStatementPart; try apply safe_ret.
  - apply safe_bind; [apply safe_getMatchString|]. intros s. apply safe_ret.
  - apply safe_bind; [apply safe_getCreateOrMergeString|].
    intros s. apply safe_ret.
  - apply safe_bind; [apply safe_getCreateOrMergeString|].
    intros s. apply safe_ret.
  - apply safe_bind; [|intros s; apply safe_ret].
    unfold getSetString, getSetPartsStatement. apply safe_bind.
    + apply safe_mapM. intros kv.
      apply (safe_register kv.1 kv.2
               (fun name => i +:+ "." +:+ kv.1 +:+ " = $" +:+ name)).
    + intros parts. apply safe_ret.
  - apply safe_bind; [|intros x; apply safe_ret].
    unfold getLimitString. apply safe_bind; [|intros x; apply safe_ret].
    apply (safe_register "limit" (int n) (fun name => "$" +:+ name)).
Qed.

Lemma safe_setStatementByParameters parameters :
  safe (setStatementByParameters parameters).
Proof.
  unfold setStatementByParameters. apply safe_bind.
  - apply safe_mapM, safe_getStatementPart.
  - intros parts. apply safe_ret.
Qed.

(** X8: a compilation never removes or changes an entry of the table it
    is given, whether it returns a statement or throws; the same holds for
    the construction of a Where on that table. *)
Theorem table_only_grows :
  (forall parameters config,
     default ∅ config ⊆ (newQueryBuilder parameters config).1)
  /\ (forall whereParams bp, bp ⊆ (newWhere whereParams (Some bp)).1)
  /\ (forall w whereParams bp, bp ⊆ (addParams w whereParams bp).1).
Proof.
  split; [|split].
  - intros parameters config.
    apply (safe_setStatementByParameters parameters).
  - apply newWhere_grows.
  - intros w whereParams bp. unfold addParams, setBindParamNames.
    cbn [rawParams identifierPropertyData].
    destruct (setBindParamNamesLoop _ _) as [bp' ipd'] eqn:Hloop.
    by apply setBindParamNamesLoop_entries in Hloop
      as (new & _ & _ & Hsub & _).
Qed.

Lemma getStatementPart_throws param bp e :
  (getStatementPart param bp).2 = Throw e -> isPatternClause param = true.
Proof.
  destruct param as [raw|m|c|c|[s|i ps]|dlt|remove|rtn|[s|n]|w];
    try done.
  - unfold getStatementPart, getSetString, getSetPartsStatement, bind, ret.
    destruct (mapM _ ps bp) as [bp1 [parts|e']] eqn:Hps; [done|].
    exfalso. apply mapM_Throw_iff in Hps
      as (pre & kv & post & bp2 & parts & _ & _ & Hkv).
    by destruct (getUniqueNameAndAdd kv.1 kv.2 bp2).
Qed.

Lemma compile_fault_clause ps bp bp' e :
  setStatementByParameters ps bp = (bp', Throw e) ->
  exists p bp1, p ∈ ps /\ getStatementPart p bp1 = (bp', Throw e).
Proof.
  unfold setStatementByParameters, bind, ret.
  destruct (mapM getStatementPart ps bp) as [bp1 [parts|e']] eqn:Hps; [done|].
  intros [= <- <-].
  apply mapM_Throw_iff in Hps
    as (pre & p & post & bp2 & parts & -> & _ & Hp).
  exists p, bp2. split; [|done].
  apply elem_of_app. right. by left.
Qed.

(** X9: the only errors a compilation throws are the object-mode error of
    a predicate, the related-pattern error and the create-parameter
    error, and only a Match, Create or Merge clause throws: the other
    clauses always render. *)
Theorem compile_errors :
  (forall parameters config e,
     (newQueryBuilder parameters config).2 = Throw e -> knownError e)
  /\ (forall param bp e,
        (getStatementPart param bp).2 = Throw e ->
        isPatternClause param = true /\ knownError e)
  /\ (forall parameters config,
        Forall (fun param => isPatternClause param = false) parameters ->
        exists stmt, (newQueryBuilder parameters config).2 = Ok stmt).
Proof.
  split; [|split].
  - intros parameters config e.
    apply (safe_setStatementByParameters parameters).
  - intros param bp e He. split.
    + by eapply getStatementPart_throws.
    + by eapply (safe_getStatementPart param).
  - intros parameters config Hall. unfold newQueryBuilder.
    destruct (setStatementByParameters parameters (default ∅ config))
      as [bp' [stmt|e]] eqn:Hrun; [by exists stmt|].
    apply compile_fault_clause in Hrun as (p & bp1 & Hin & Hp).
    rewrite Forall_forall in Hall. specialize (Hall p Hin).
    assert ((getStatementPart p bp1).2 = Throw e) as Hthrow by by rewrite Hp.
    apply getStatementPart_throws in Hthrow. congruence.
Qed.

(** ** Clauses that do not reach the table *)

Lemma getStatementPart_text param bp :
  usesTable param = false ->
  exists part, getStatementPart param bp = (bp, Ok part).
Proof.
  destruct param as [raw|[s|o]|[s|o]|[s|o]|[s|i ps]|dlt|remove|rtn|[s|n]|w];
    try done; intros _; by eexists.
Qed.

(** X10: clauses given as text, and Delete, Remove, Return and With
    clauses in any form, never throw and leave the table as it is: a
    query made of such clauses compiles to a statement and hands back the
    table it was given. *)
Theorem text_clauses_keep_table parameters config :
  Forall (fun param => usesTable param = false) parameters ->
  exists stmt,
    newQueryBuilder parameters config = (default ∅ config, Ok stmt).
Proof.
  intros Hall. unfold newQueryBuilder, setStatementByParameters, bind, ret.
  assert (forall bp, exists parts,
            mapM getStatementPart parameters bp = (bp, Ok parts)) as Hparts.
  { induction Hall as [|param parameters Hparam _ IH]; intros bp.
    - by exists [].
    - destruct (getStatementPart_text param bp Hparam) as [part Hpart].
      destruct (IH bp) as [parts Hrest].
      exists (part :: parts). cbn [mapM]. unfold bind, ret.
      by rewrite Hpart, Hrest. }
  destruct (Hparts (default ∅ config)) as [parts ->]. by eexists.
Qed.

(** ** Match with the optional flag *)

(** X11: a Match clause given as an object with the optional flag set
    renders a fragment that begins with [OPTIONAL MATCH] and a space, for
    each of the four pattern forms, and so does a statement that starts
    with such a clause; a Match given as a string renders [MATCH], a
    space and the string, on an unchanged table. *)
Theorem match_optional :
  (forall o bp bp' s,
     m_optional o = true ->
     getMatchString (MatchObj o) bp = (bp', Ok s) ->
     exists rest, s = "OPTIONAL MATCH " +:+ rest)
  /\ (forall o ps bp bp' stmt,
        m_optional o = true ->
        setStatementByParameters (Match (MatchObj o) :: ps) bp
        = (bp', Ok stmt) ->
        exists rest, stmt = "OPTIONAL MATCH " +:+ rest)
  /\ (forall s bp,
        getMatchString (MatchString s) bp = (bp, Ok ("MATCH " +:+ s))).
Proof.
  assert (forall o bp bp' s,
            m_optional o = true ->
            getMatchString (MatchObj o) bp = (bp', Ok s) ->
            exists rest, s = "OPTIONAL MATCH " +:+ rest) as Hfragment.
  { intros o bp bp' s Hopt. unfold getMatchString. rewrite Hopt.
    destruct (m_multiple o) as [multiple|];
      [|destruct (m_related o) as [related|];
        [|destruct (m_literal o) as [literal|]]]; monad_unfold.
    - destruct (mapM getNodeString multiple bp) as [bp1 [nodes|e]]; [|done].
      intros [= <- <-]. by eexists.
    - destruct (getRelatedParts 0 related bp) as [bp1 [parts|e]]; [|done].
      intros [= <- <-]. by eexists.
    - destruct (getNodeString literal bp) as [bp1 [node|e]]; [|done].
      intros [= <- <-]. by eexists.
    - destruct (getNodeString (ElObject (m_node o)) bp)
        as [bp1 [node|e]]; [|done].
      intros [= <- <-]. by eexists. }
  split; [exact Hfragment|]. split; [|done].
  intros o ps bp bp' stmt Hopt. unfold setStatementByParameters.
  cbn [mapM getStatementPart]. monad_unfold.
  destruct (getMatchString (MatchObj o) bp) as [bp1 [s|e]] eqn:Hm; [|done].
  apply Hfragment in Hm as [rest ->]; [|done].
  destruct (mapM getStatementPart ps bp1) as [bp2 [parts|e]]; [|done].
  intros [= <- <-]. unfold joinParts, join. simpl.
  destruct (List.map (default "") parts) as [|q qs];
    eexists; unfold replaceWhitespace; rewrite !append_cons; simpl;
    reflexivity.
Qed.

(** ** Fields that are not read *)

(** X12: an element with a predicate is rendered without its properties,
    which are neither rendered nor registered; an explicit label makes the
    model unused; a Create or Merge clause given as a bare node renders
    the node from its identifier and its label (or model) only: its
    predicate and its properties are dropped and the table stays as it
    is. *)
Theorem unread_fields :
  (forall i l m w ps ps' d n,
     getNodeString
       (ElObject {| identifier := i; label := l; model := m;
                    where_ := Some w; properties := ps;
                    direction := d; name := n |})
     = getNodeString
         (ElObject {| identifier := i; label := l; model := m;
                      where_ := Some w; properties := ps';
                      direction := d; name := n |}))
  /\ (forall i l m m' w ps d n,
        getNodeString
          (ElObject {| identifier := i; label := Some l; model := m;
                       where_ := w; properties := ps;
                       direction := d; name := n |})
        = getNodeString
            (ElObject {| identifier := i; label := Some l; model := m';
                         where_ := w; properties := ps;
                         direction := d; name := n |}))
  /\ (forall o mode,
        c_multiple o = None -> c_related o = None ->
        is_Some (label (c_node o)) \/ is_Some (model (c_node o)) ->
        getCreateOrMergeString (CreateObj o) mode
        = getCreateOrMergeString
            (CreateObj {| c_multiple := None; c_related := None;
                          c_node := bareNode (c_node o) |}) mode)
  /\ (forall o mode bp,
        c_multiple o = None -> c_related o = None ->
        (getCreateOrMergeString (CreateObj o) mode bp).1 = bp).
Proof.
  repeat apply conj.
  - done.
  - done.
  - intros o mode Hm Hr Hnode. unfold getCreateOrMergeString, bareNode.
    rewrite Hm, Hr. cbn [c_multiple c_related c_node label model identifier].
    destruct (label (c_node o)), (model (c_node o)); try done.
    by destruct Hnode as [[? ?]|[? ?]].
  - intros o mode bp Hm Hr. unfold getCreateOrMergeString.
    rewrite Hm, Hr.
    by destruct (label (c_node o)), (model (c_node o)).
Qed.

(** ** Return and Remove *)

Lemma join_map_ext {A} sep (f g : A -> string) l :
  (forall x, f x = g x) -> join sep (List.map f l) = join sep (List.map g l).
Proof.
  intros Hfg. f_equal. induction l as [|x l IH]; [done|]. simpl.
  by rewrite Hfg, IH.
Qed.

(** X13: a Return clause made of objects without a property renders as
    the Return clause of the plain list of their identifiers, and an
    empty property counts as no property. *)
Theorem return_objects :
  (forall identifiers,
     getReturnString
       (ReturnObjects (List.map (fun i => (i, None)) identifiers))
     = getReturnString (ReturnStrings identifiers))
  /\ (forall l,
        getReturnString (ReturnObjects l)
        = getReturnString (ReturnObjects (List.map withoutEmptyProperty l))).
Proof.
  split.
  - intros identifiers. unfold getReturnString. f_equal. f_equal.
    rewrite List.map_map. simpl.
    induction identifiers as [|i identifiers IH]; [done|]. simpl.
    by rewrite append_nil_r, IH.
  - intros l. unfold getReturnString. f_equal.
    rewrite List.map_map. apply join_map_ext.
    intros [i [property|]]; unfold withoutEmptyProperty; simpl; [|done].
    destruct (String.eqb property "") eqn:Hp; simpl; [done|].
    by rewrite Hp.
Qed.

Lemma join_colon_cons (l : string) (labels : list string) :
  ":" +:+ String.concat ":" (l :: labels)
  = concatenate (List.map (String.append ":") (l :: labels)).
Proof.
  unfold concatenate. revert l.
  induction labels as [|l' labels IH]; intros l.
  - simpl. by rewrite append_nil_r.
  - change (String.concat ":" (l :: l' :: labels))
      with (l +:+ ":" +:+ String.concat ":" (l' :: labels)).
    rewrite IH. cbn [List.map fold_right].
    by rewrite (append_assoc ":" l).
Qed.

Lemma join_colon (labels : list string) :
  labels <> [] ->
  ":" +:+ join ":" labels
  = concatenate (List.map (String.append ":") labels).
Proof.
  destruct labels as [|l labels]; [done|]. intros _.
  apply join_colon_cons.
Qed.

(** X14: a Remove clause with labels renders the identifier followed by
    each label preceded by a colon, with no space; with an empty list of
    labels it renders the identifier and a lone colon; when properties
    are given too the labels are not rendered. *)
Theorem remove_labels :
  (forall i labels,
     labels <> [] ->
     getRemoveString
       (RemoveObj {| r_identifier := i; r_properties := None;
                     r_labels := Some (Many labels) |})
     = Some ("REMOVE " +:+ i
             +:+ concatenate (List.map (String.append ":") labels)))
  /\ (forall i,
        getRemoveString
          (RemoveObj {| r_identifier := i; r_properties := None;
                        r_labels := Some (Many []) |})
        = Some ("REMOVE " +:+ i +:+ ":"))
  /\ (forall i ps labels labels',
        getRemoveString
          (RemoveObj {| r_identifier := i; r_properties := Some ps;
                        r_labels := labels |})
        = getRemoveString
            (RemoveObj {| r_identifier := i; r_properties := Some ps;
                          r_labels := labels' |})).
Proof.
  split; [|split].
  - intros i labels Hne. unfold getRemoveString. simpl.
    by rewrite join_colon.
  - done.
  - done.
Qed.

(** ** The placeholders of a Where *)

Lemma setBindParamName_names nodeIdentifier bp ipd property v bp' ipd' :
  setBindParamName nodeIdentifier (bp, ipd) (property, v) = (bp', ipd') ->
  exists new names,
    ipd' = ipd ++ new
    /\ List.map bindParamName new = List.map (String.append "$") names
    /\ freshNames bp names bp'.
Proof.
  unfold setBindParamName, getNameAndAddToParams.
  destruct (isNeo4jSupportedTypes v); [|destruct (isWhereIn v)].
  - destruct (getUniqueNameAndAdd property v bp) as [bp1 name] eqn:Hadd.
    intros [= <- <-]. eexists [_], [name]. split; [done|].
    split; [done | by eapply freshNames_add].
  - destruct (getUniqueNameAndAdd property (getOpIn v) bp)
      as [bp1 name] eqn:Hadd.
    intros [= <- <-]. eexists [_], [name]. split; [done|].
    split; [done | by eapply freshNames_add].
  - intros [= <- <-]. exists [], []. rewrite app_nil_r.
    split; [done|]. split; [done | apply freshNames_nil].
Qed.

Lemma setBindParamNames_names nodeIdentifier ps bp ipd bp' ipd' :
  fold_left (setBindParamName nodeIdentifier) ps (bp, ipd) = (bp', ipd') ->
  exists new names,
    ipd' = ipd ++ new
    /\ List.map bindParamName new = List.map (String.append "$") names
    /\ freshNames bp names bp'.
Proof.
  revert bp ipd. induction ps as [|[property v] ps IH]; intros bp ipd;
    cbn [fold_left].
  - intros [= <- <-]. exists [], []. rewrite app_nil_r.
    split; [done|]. split; [done | apply freshNames_nil].
  - destruct (setBindParamName nodeIdentifier (bp, ipd) (property, v))
      as [bp1 ipd1] eqn:Hstep.
    apply setBindParamName_names in Hstep
      as (new1 & names1 & -> & Hnew1 & Hf1).
    intros Hrest.
    apply IH in Hrest as (new2 & names2 & -> & Hnew2 & Hf2).
    exists (new1 ++ new2), (names1 ++ names2).
    split; [by rewrite (assoc_L (++))|].
    split; [|by eapply freshNames_app].
    by rewrite !map_app, Hnew1, Hnew2.
Qed.

Lemma setBindParamNamesLoop_names params bp ipd bp' ipd' :
  setBindParamNamesLoop params (bp, ipd) = (bp', ipd') ->
  exists new names,
    ipd' = ipd ++ new
    /\ List.map bindParamName new = List.map (String.append "$") names
    /\ freshNames bp names bp'.
Proof.
  unfold setBindParamNamesLoop.
  revert bp ipd. induction params as [|[i ps] params IH]; intros bp ipd;
    cbn [fold_left fst snd].
  - intros [= <- <-]. exists [], []. rewrite app_nil_r.
    split; [done|]. split; [done | apply freshNames_nil].
  - destruct (fold_left (setBindParamName i) ps (bp, ipd))
      as [bp1 ipd1] eqn:Hstep.
    apply setBindParamNames_names in Hstep
      as (new1 & names1 & -> & Hnew1 & Hf1).
    intros Hrest.
    apply IH in Hrest as (new2 & names2 & -> & Hnew2 & Hf2).
    exists (new1 ++ new2), (names1 ++ names2).
    split; [by rewrite (assoc_L (++))|].
    split; [|by eapply freshNames_app].
    by rewrite !map_app, Hnew1, Hnew2.
Qed.

(** X15: the placeholders of a Where are pairwise distinct names of
    entries of the shared table: this holds for a new Where, is kept by
    [addParams], and is kept when anything else is added to the table. *)
Theorem where_placeholders_registered :
  (forall whereParams bindParam,
     let '(bp, w) := newWhere whereParams bindParam in
     placeholdersRegistered bp w)
  /\ (forall w whereParams bp,
        placeholdersRegistered bp w ->
        let '(bp', w') := addParams w whereParams bp in
        placeholdersRegistered bp' w')
  /\ (forall w (bp bp' : BindParam),
        bp ⊆ bp' ->
        placeholdersRegistered bp w -> placeholdersRegistered bp' w).
Proof.
  assert (forall w whereParams bp,
            placeholdersRegistered bp w ->
            let '(bp', w') := addParams w whereParams bp in
            placeholdersRegistered bp' w') as Hadd.
  { intros w whereParams bp (names & Hnames & Hnd & Hall).
    unfold addParams, setBindParamNames.
    cbn [rawParams identifierPropertyData].
    destruct (setBindParamNamesLoop _ _) as [bp' ipd'] eqn:Hloop.
    apply setBindParamNamesLoop_names in Hloop
      as (new & names' & -> & Hnew & Hsub & Hnd' & Hall').
    exists (names ++ names'). cbn [identifierPropertyData].
    split; [by rewrite !map_app, Hnames, Hnew|]. split.
    - apply NoDup_app. split; [done|]. split; [|done].
      intros n Hn Hn'. rewrite Forall_forall in Hall, Hall'.
      destruct (Hall n Hn) as [v Hv]. destruct (Hall' n Hn') as [Hnone _].
      congruence.
    - apply Forall_app. split.
      + eapply Forall_impl; [exact Hall|]. intros n [v Hv].
        exists v. by eapply lookup_weaken.
      + eapply Forall_impl; [exact Hall'|]. by intros n [_ ?]. }
  split; [|split; [exact Hadd|]].
  - intros whereParams bindParam. unfold newWhere.
    apply (Hadd {| rawParams := []; identifierPropertyData := [] |}).
    exists []. split; [done|]. split; constructor.
  - intros w bp bp' Hsub (names & Hnames & Hnd & Hall).
    exists names. split; [done|]. split; [done|].
    eapply Forall_impl; [exact Hall|]. intros n [v Hv].
    exists v. by eapply lookup_weaken.
Qed.

(** X16: two queries compiled one after the other on one table, the
    second given the table handed back by the first, have no placeholder
    in common and all their placeholders are in the final table, when the
    text supplied by the caller contains no dollar sign and sanitized
    names are valid placeholder identifiers. *)
Theorem shared_table_statements ps1 ps2 config bp1 bp2 stmt1 stmt2 :
  (forall s, allIdent (sanitize s) = true) ->
  dollarFreeAll (parametersTexts ps1) ->
  dollarFreeAll (parametersTexts ps2) ->
  newQueryBuilder ps1 config = (bp1, Ok stmt1) ->
  newQueryBuilder ps2 (Some bp1) = (bp2, Ok stmt2) ->
  NoDup (placeholders stmt1 ++ placeholders stmt2)
  /\ Forall (fun n => is_Some (bp2 !! n))
            (placeholders stmt1 ++ placeholders stmt2).
Proof.
  intros Hsanitize Htexts1 Htexts2. unfold newQueryBuilder.
  intros Hrun1 Hrun2.
  change (setStatementByParameters ps2 bp1 = (bp2, Ok stmt2)) in Hrun2.
  pose proof (setStatementByParameters_yields Hsanitize ps1
                (default ∅ config) Htexts1) as Hy1.
  pose proof (setStatementByParameters_yields Hsanitize ps2 bp1 Htexts2)
    as Hy2.
  rewrite Hrun1 in Hy1. rewrite Hrun2 in Hy2.
  destruct Hy1 as (names1 & -> & Hf1). destruct Hy2 as (names2 & -> & Hf2).
  destruct (freshNames_app _ _ _ _ _ Hf1 Hf2) as (_ & Hnd & Hall).
  split; [done|].
  eapply Forall_impl; [exact Hall|]. by intros n [_ ?].
Qed.

End Compiler.

(** * Instances *)

Lemma match_leading_space_witness :
  m_optional (exampleMatchNode (exampleNode "a" "A" None)) = false
  /\ setStatementByParameters id
       [Match (MatchObj (exampleMatchNode (exampleNode "a" "A" None)))] ∅
     = (∅, Ok " MATCH (a:A)")
  /\ exists rest, " MATCH (a:A)" = " MATCH " +:+ rest.
Proof.
  split; [reflexivity|]. split; [vm_compute; reflexivity|].
  refine (proj2 (match_leading_space id
                   (exampleMatchNode (exampleNode "a" "A" None)) eq_refl)
            [] ∅ ∅ " MATCH (a:A)" _).
  vm_compute. reflexivity.
Defined.

Lemma unsupported_value_skipped_witness :
  isNeo4jSupportedTypes VNull = false
  /\ isWhereIn VNull = false
  /\ setBindParamName id "a" (∅, []) ("p", VNull) = (∅, []).
Proof.
  split; [reflexivity|]. split; [reflexivity|].
  apply (proj1 (unsupported_value_skipped id) "a" (∅, []) "p" VNull);
    reflexivity.
Defined.

(** The claim of C2 fails: a null value raises no error, neither in the
    Where nor in a statement compiled from it. *)
Lemma unsupported_value_no_error :
  isNeo4jSupportedTypes VNull = false
  /\ isWhereIn VNull = false
  /\ newWhere id [("a", [("p", VNull)])] None
     = (∅, {| rawParams := [[("a", [("p", VNull)])]];
              identifierPropertyData := [] |})
  /\ newQueryBuilder id
       [Match (MatchObj (exampleMatchNode
                           (exampleNode "a" "A" (Some [("p", VNull)]))))]
       None
     = (∅, Ok " MATCH (a:A { })").
Proof.
  repeat split; vm_compute; reflexivity.
Defined.

Lemma getStatement_modes_witness :
  getStatement
    {| rawParams := [];
       identifierPropertyData :=
         [{| ipd_identifier := "a"; ipd_property := "p1";
             bindParamName := "$p1"; operator := OpIn |}] |}
    ModeObject
  = Throw (mkError objectModeMessage (ActualModeOperator ModeObject OpIn)).
Proof.
  apply (proj1 (proj2 (getStatement_modes id))
           {| rawParams := [];
              identifierPropertyData :=
                [{| ipd_identifier := "a"; ipd_property := "p1";
                    bindParamName := "$p1"; operator := OpIn |}] |}
           []
           {| ipd_identifier := "a"; ipd_property := "p1";
              bindParamName := "$p1"; operator := OpIn |}
           []).
  - reflexivity.
  - constructor.
  - reflexivity.
Defined.


Lemma related_pattern_witness :
  getMatchString id
    (MatchObj (exampleMatchRelated
                 [ElObject (exampleNode "a" "A" None);
                  ElObject (exampleNode "b" "B" None)])) ∅
  = (∅, Throw (mkError relatedMessage NoData)).
Proof.
  apply (proj1 (related_pattern id)
           (exampleMatchRelated
              [ElObject (exampleNode "a" "A" None);
               ElObject (exampleNode "b" "B" None)])
           [ElObject (exampleNode "a" "A" None)]
           (ElObject (exampleNode "b" "B" None)) [] ∅ ∅ ["(a:A)"]);
    reflexivity.
Defined.

(** The claim of C4 fails: the second element of the related pattern is
    not a relationship, yet the error thrown is the one of the first
    element, whose predicate cannot be rendered in object mode; the same
    holds for Create. *)
Lemma related_other_error_first :
  let related :=
    [ElObject (exampleNode "a" "A" (Some [("p", exampleIn)]));
     ElObject (exampleNode "b" "B" None)] in
  isRelationship (ElObject (exampleNode "b" "B" None)) = false
  /\ (getMatchString id (MatchObj (exampleMatchRelated related)) ∅).2
     = Throw (mkError objectModeMessage (ActualModeOperator ModeObject OpIn))
  /\ (getCreateOrMergeString id (CreateObj (exampleCreateRelated related))
        ModeCreate ∅).2
     = Throw (mkError objectModeMessage (ActualModeOperator ModeObject OpIn))
  /\ objectModeMessage <> relatedMessage.
Proof.
  repeat split; try (vm_compute; reflexivity).
  vm_compute. discriminate.
Defined.

Lemma allIdent_keepIdent s : allIdent (keepIdent s) = true.
Proof.
  unfold allIdent. induction s as [|c s IH]; [done|]. simpl.
  destruct (isIdentChar c) eqn:Hc; [|done]. simpl. by rewrite Hc.
Qed.

Lemma placeholders_registered_witness :
  let bp := (newQueryBuilder keepIdent exampleQuery None).1 in
  newQueryBuilder keepIdent exampleQuery None = (bp, Ok exampleStatement)
  /\ placeholders exampleStatement = ["p"; "limit"; "limit1"]
  /\ NoDup (placeholders exampleStatement)
  /\ Forall (fun n => is_Some (bp !! n) /\ (∅ : BindParam) !! n = None)
            (placeholders exampleStatement)
  /\ ∅ ⊆ bp.
Proof.
  intros bp.
  assert (newQueryBuilder keepIdent exampleQuery None
          = (bp, Ok exampleStatement)) as Hrun
    by (vm_compute; reflexivity).
  split; [exact Hrun|]. split; [reflexivity|].
  apply (placeholders_registered keepIdent allIdent_keepIdent
           exampleQuery None bp exampleStatement); [|exact Hrun].
  repeat constructor.
Defined.

(** The claim of C1 fails: a placeholder written in a raw fragment occurs
    in the statement and has no entry in the table. *)
Lemma raw_placeholder_unregistered :
  newQueryBuilder keepIdent [Raw "RETURN $x"] None = (∅, Ok "RETURN $x")
  /\ placeholders "RETURN $x" = ["x"]
  /\ (∅ : BindParam) !! "x" = None.
Proof.
  split; [vm_compute; reflexivity|]. split; reflexivity.
Defined.


Lemma merge_is_shallow_witness :
  dict_get "a"
    (dict_assign_all (A := WhereParamsI)
       ([exampleParams] ++ [[("a", [("p1", VString "y")])]]))
  = Some [("p1", VString "y")].
Proof.
  apply (proj1 (proj2 merge_is_shallow)
           [exampleParams] [("a", [("p1", VString "y")])] "a").
  repeat constructor. apply not_elem_of_nil.
Defined.

Lemma normalization_idempotent_witness :
  replaceWhitespace "MATCH (a) RETURN a" = "MATCH (a) RETURN a".
Proof.
  apply (proj1 (proj2 normalization_idempotent)). reflexivity.
Defined.

Lemma compile_concatenation_witness :
  setStatementByParameters id
    ([Raw "MATCH (a)"] ++ [Return (ReturnStrings ["a"])]) ∅
  = (∅, Ok (replaceWhitespace ("MATCH (a)" +:+ " " +:+ "RETURN a"))).
Proof.
  apply (proj2 (compile_concatenation id)
           [Raw "MATCH (a)"] [Return (ReturnStrings ["a"])] ∅ ∅ ∅);
    done.
Defined.

Lemma compile_errors_witness :
  exists stmt,
    (newQueryBuilder id
       [Raw "MATCH (a)"; Limit (LimitNumber 3); Return (ReturnStrings ["a"])]
       None).2 = Ok stmt.
Proof.
  apply (proj2 (proj2 (compile_errors id))). repeat constructor.
Defined.

Lemma text_clauses_keep_table_witness :
  exists stmt,
    newQueryBuilder id
      [Raw "MATCH (a)";
       Delete (DeleteObj {| d_identifiers := Some (One "a");
                            d_literal := None; d_detach := true |});
       Return (ReturnStrings ["a"])]
      None
    = (∅, Ok stmt).
Proof.
  apply (text_clauses_keep_table id
           [Raw "MATCH (a)";
            Delete (DeleteObj {| d_identifiers := Some (One "a");
                                 d_literal := None; d_detach := true |});
            Return (ReturnStrings ["a"])]
           None).
  repeat constructor.
Defined.

Lemma match_optional_witness :
  exists rest,
    "OPTIONAL MATCH (a:A)" = "OPTIONAL MATCH " +:+ rest.
Proof.
  apply (proj1 (match_optional id)
           {| m_multiple := None; m_related := None; m_literal := None;
              m_optional := true; m_node := exampleNode "a" "A" None |}
           ∅ ∅ "OPTIONAL MATCH (a:A)"); reflexivity.
Defined.

Lemma unread_fields_witness :
  (getCreateOrMergeString id
     (CreateObj {| c_multiple := None; c_related := None;
                   c_node := exampleNode "a" "A" (Some [("p", VNumber 1)]) |})
     ModeCreate ∅).1 = ∅.
Proof.
  apply (proj2 (proj2 (proj2 (unread_fields id)))); reflexivity.
Defined.

Lemma remove_labels_witness :
  getRemoveString
    (RemoveObj {| r_identifier := "a"; r_properties := None;
                  r_labels := Some (Many ["L1"; "L2"]) |})
  = Some ("REMOVE " +:+ "a"
          +:+ concatenate (List.map (String.append ":") ["L1"; "L2"])).
Proof.
  apply (proj1 remove_labels). done.
Defined.

Lemma where_placeholders_registered_witness :
  placeholdersRegistered (<["q" := VNumber 1]> ∅)
    {| rawParams := []; identifierPropertyData := [] |}.
Proof.
  apply (proj2 (proj2 (where_placeholders_registered id))
           {| rawParams := []; identifierPropertyData := [] |}
           ∅ (<["q" := VNumber 1]> ∅)).
  - apply map_empty_subseteq.
  - exists []. split; [reflexivity|]. split; constructor.
Defined.

Lemma shared_table_statements_witness :
  let bp1 := (newQueryBuilder keepIdent exampleQuery None).1 in
  let r2 := newQueryBuilder keepIdent [Limit (LimitNumber 7)] (Some bp1) in
  r2.2 = Ok "LIMIT $limit2"
  /\ NoDup (placeholders exampleStatement ++ placeholders "LIMIT $limit2")
  /\ Forall (fun n => is_Some (r2.1 !! n))
            (placeholders exampleStatement ++ placeholders "LIMIT $limit2").
Proof.
  intros bp1 r2.
  assert (newQueryBuilder keepIdent exampleQuery None
          = (bp1, Ok exampleStatement)) as Hrun1
    by (vm_compute; reflexivity).
  assert (newQueryBuilder keepIdent [Limit (LimitNumber 7)] (Some bp1)
          = (r2.1, Ok "LIMIT $limit2")) as Hrun2
    by (vm_compute; reflexivity).
  split; [vm_compute; reflexivity|].
  apply (shared_table_statements keepIdent exampleQuery
           [Limit (LimitNumber 7)] None bp1 r2.1
           exampleStatement "LIMIT $limit2" allIdent_keepIdent);
    [repeat constructor | repeat constructor | exact Hrun1 | exact Hrun2].
Defined.
